(** * bc3-parser: a shallow embedding of [src/main/python/parser.py]

    The BC3 converter reads four lookup tables out of the records of a
    budget file, resolves the root of the decomposition graph, builds the
    tree of nodes, prunes the branches without quantity and renumbers the
    position codes.  This file embeds the record extractor, the four
    decoders, the tree pipeline (root resolver, builder, pruner,
    renumberer), the conversion that composes them and the search for a
    free output name, and proves the properties the specification states
    about them, followed by further properties read off the code.

    Modelling choices, all following the Python source:
    - [float] is the kernel's binary64 type, which is what a Python float
      is; [cantidad_val != 0.0] is the negation of IEEE equality;
    - a [Dict[str, _]] that is only looked up is a [gmap string _];
    - the [Set[str]] called [visited] is one mutable object shared by all
      recursive calls of [build_node]: it is threaded through the calls as
      state, every call returning the set it leaves behind;
    - a node dictionary is a record; the empty dictionary [{}] returned by
      the cycle guard is [None];
    - every node is a dictionary of its own, created by the call of
      [build_node] that returns it and held by one parent only, so the two
      passes that mutate the tree in place ([prune_tree], [renumber_tree])
      are functions from trees to trees;
    - Python recursion is unbounded, so [build_node] takes a fuel argument
      that bounds the recursion depth and answers [None] only when the
      fuel runs out;
    - [float(s)] is a parameter of the decoders: a function from
      strings to floats that may fail;
    - a text decoded as latin-1 is a [string], one character per byte;
      the [while True] loops of [load_records] and
      [generar_nombre_incremental] take a fuel argument, and are proved
      to return with the fuel the callers give them;
    - the folder [generar_nombre_incremental] looks into is the finite
      set of the names of its files. *)

From Stdlib Require Import Ascii PrimFloat DecimalString DecimalNat.
From stdpp Require Import gmap strings list fin_maps.

Set Warnings "-register-all,-clear-no-such-hyp".

(** * The program

    The definitions of this part follow the source, function by function. *)

(** ** Data model *)

(** The value stored per code by [parse_concepts]: a dictionary with the
    four keys "codigo", "unidad", "resumen" and "precio". *)
Record concept := Concept {
  concept_codigo : string;
  concept_unidad : option string;
  concept_resumen : string;
  concept_precio : float;
}.

(** The dictionary [build_node] returns.  [margen], [grupo] and
    [proveedor] are always [None] and [interno] is always [True]. *)
Inductive node := Node {
  codigo_decimal : string;
  codigo : string;
  naturaleza : nat;
  unidad : option string;
  resumen : string;
  descripcion_larga : option string;
  cantidad : float;
  precio : float;
  margen : option float;
  importe : float;
  interno : bool;
  grupo : option string;
  proveedor : option string;
  hijos : list node;
}.

(** [node["hijos"] = hs] *)
Definition set_hijos (n : node) (hs : list node) : node :=
  Node (codigo_decimal n) (codigo n) (naturaleza n) (unidad n) (resumen n)
       (descripcion_larga n) (cantidad n) (precio n) (margen n) (importe n)
       (interno n) (grupo n) (proveedor n) hs.

(** [node["codigo_decimal"] = cd] *)
Definition set_codigo_decimal (n : node) (cd : string) : node :=
  Node cd (codigo n) (naturaleza n) (unidad n) (resumen n)
       (descripcion_larga n) (cantidad n) (precio n) (margen n) (importe n)
       (interno n) (grupo n) (proveedor n) (hijos n).

(** The four values of "naturaleza", named as in the docstring of
    [determine_naturaleza]. *)
Definition Root : nat := 0.
Definition Chapter : nat := 1.
Definition Subchapter : nat := 2.
Definition LineItem : nat := 3.

(** Truthiness of a Python list. *)
Definition truthy {A} (l : list A) : bool :=
  match l with [] => false | _ :: _ => true end.

(** ** Format [f"{idx:02d}"] *)

Definition str_of_nat (n : nat) : string := NilZero.string_of_uint (Nat.to_uint n).

Fixpoint zeros (k : nat) : string :=
  match k with 0 => "" | S k => "0" +:+ zeros k end.

(** Decimal digits of [idx], left-padded with zeros to width two. *)
Definition fmt_02d (idx : nat) : string :=
  let s := str_of_nat idx in zeros (2 - String.length s) +:+ s.

(** ** Tree builder *)

Definition determine_naturaleza (depth : nat) (has_children : bool) : nat :=
  if (depth =? 0)%nat then 0
  else if negb has_children then 3
  else if (depth =? 1)%nat then 1
  else 2.

(** The position code [build_node] and [_renumber_children] give to the
    child number [idx] of a node at [depth] whose code is [parent_cd]. *)
Definition child_cd (depth : nat) (parent_cd : string) (idx : nat) : string :=
  if (depth =? 0)%nat then fmt_02d idx
  else parent_cd +:+ "." +:+ fmt_02d idx.

Section builder.
Context (decomp : gmap string (list (string * float))).
Context (concepts : gmap string concept).
Context (texts : gmap string string).
Context (quantities : gmap string float).

(** The [for idx, (child_code, factor) in enumerate(children_info, start=1)]
    loop of [build_node], with [rec] the recursive call.  The loop state
    is the index, the shared [visited] set and the list [hijos] built so
    far. *)
Section children.
Context (rec : string → nat → string → gset string →
               option (option node * gset string)).
Context (depth : nat) (parent_cd : string).

Fixpoint build_children (children_info : list (string * float)) (idx : nat)
    (visited : gset string) (hijos : list node)
    : option (list node * gset string) :=
  match children_info with
  | [] => Some (hijos, visited)
  | (child_code, factor) :: rest =>
      match rec child_code (S depth) (child_cd depth parent_cd idx) visited with
      | None => None
      | Some (child_node, visited) =>
          build_children rest (S idx) visited
            (match child_node with
             | Some n => hijos ++ [n]
             | None => hijos
             end)
      end
  end.
End children.

(** The quantity computed on lines 246-257. *)
Definition build_cantidad (code : string) (depth : nat)
    (children_info : list (string * float)) : float :=
  if (depth =? 0)%nat then 1%float
  else if (depth =? 1)%nat then 1%float
  else if (2 <=? depth)%nat && truthy children_info then 1%float
  else match quantities !! code with
       | Some q => q
       | None => 0%float
       end.

Fixpoint build_node (fuel : nat) (code : string) (depth : nat)
    (codigo_decimal : string) (visited : gset string)
    : option (option node * gset string) :=
  match fuel with
  | 0 => None
  | S fuel =>
      if decide (code ∈ visited) then Some (None, visited)
      else
        let visited := {[code]} ∪ visited in
        let concept := concepts !! code in
        let unidad := concept ≫= concept_unidad in
        let resumen := from_option concept_resumen "" concept in
        let descripcion_larga := texts !! code in
        let precio := from_option concept_precio 0%float concept in
        let children_info := default [] (decomp !! code) in
        let cantidad := build_cantidad code depth children_info in
        let importe := PrimFloat.mul cantidad precio in
        match build_children (build_node fuel) depth codigo_decimal
                children_info 1 visited [] with
        | None => None
        | Some (hijos, visited) =>
            let naturaleza :=
              determine_naturaleza depth (truthy hijos || truthy children_info) in
            Some (Some (Node codigo_decimal code naturaleza unidad resumen
                          descripcion_larga cantidad precio None importe
                          true None None hijos),
                  visited)
        end
  end.
End builder.

(** ** Root resolver *)

Inductive error := RuntimeError (msg : string).

Definition no_root_msg : string :=
  "No se ha encontrado ningún nodo raíz en las descomposiciones (~D).".

(** [{c for chs in decomp.values() for (c, _) in chs}] *)
Definition child_codes (decomp : gmap string (list (string * float))) : gset string :=
  list_to_set (kv ← map_to_list decomp; kv.2.*1).

(** [parents - children] *)
Definition roots (decomp : gmap string (list (string * float))) : gset string :=
  dom decomp ∖ child_codes decomp.

(** [next(iter(roots))] is the first element in the iteration order of
    the set, which Python leaves unspecified; here it is the first element
    of [elements].  For a set of one element the two agree. *)
Definition detect_root_code (decomp : gmap string (list (string * float)))
    : error + string :=
  match elements (roots decomp) with
  | [] => inl (RuntimeError no_root_msg)
  | r :: _ => inr r
  end.

(** ** Pruner *)

(** [cantidad_val != 0.0] *)
Definition tiene_cantidad (n : node) : bool :=
  negb (PrimFloat.eqb (cantidad n) 0%float).

(** The loop shared by [_prune_node] and [prune_tree]: it keeps the
    children for which [prune] answers [True], in order, and raises the
    flag when one is kept. *)
Section prune_loop.
Context (prune : node → bool * node).

Fixpoint prune_hijos (hijos : list node) (tiene : bool)
    (hijos_filtrados : list node) : bool * list node :=
  match hijos with
  | [] => (tiene, hijos_filtrados)
  | hijo :: rest =>
      let '(keep, hijo') := prune hijo in
      if keep then prune_hijos rest true (hijos_filtrados ++ [hijo'])
      else prune_hijos rest tiene hijos_filtrados
  end.
End prune_loop.

(** [_prune_node] mutates its argument and returns a flag; here it returns
    the flag and the node as it is left. *)
Fixpoint _prune_node (n : node) : bool * node :=
  let '(tiene, hijos_filtrados) :=
    prune_hijos _prune_node (hijos n) (tiene_cantidad n) [] in
  (tiene, set_hijos n hijos_filtrados).

Definition prune_tree (root : node) : node :=
  set_hijos root (prune_hijos _prune_node (hijos root) false []).2.

(** ** Renumberer *)

(** The loop [for idx, hijo in enumerate(hijos, start=1)] of
    [_renumber_children], with [renumber cd depth hijo] standing for its
    body: [hijo["codigo_decimal"] = cd] followed by
    [_renumber_children(hijo, depth)]. *)
Section renumber_loop.
Context (renumber : string → nat → node → node).
Context (depth : nat) (parent_cd : string).

Fixpoint renumber_hijos (hijos : list node) (idx : nat) : list node :=
  match hijos with
  | [] => []
  | hijo :: rest =>
      renumber (child_cd depth parent_cd idx) (S depth) hijo
        :: renumber_hijos rest (S idx)
  end.
End renumber_loop.

(** [renumber_as cd depth n] assigns [cd] to [n] and renumbers the
    children of [n], which is at [depth]. *)
Fixpoint renumber_as (cd : string) (depth : nat) (n : node) : node :=
  Node cd (codigo n) (naturaleza n) (unidad n) (resumen n)
       (descripcion_larga n) (cantidad n) (precio n) (margen n) (importe n)
       (interno n) (grupo n) (proveedor n)
       (renumber_hijos renumber_as depth cd (hijos n) 1).

(** [_renumber_children(node, depth)] leaves the code of [node] as it is
    and uses it as the prefix of the codes of the children. *)
Definition _renumber_children (n : node) (depth : nat) : node :=
  renumber_as (codigo_decimal n) depth n.

Definition renumber_tree (root : node) : node :=
  _renumber_children (set_codigo_decimal root "0") 0.

(** ** Measurement decoder *)

(** [s.split(sep)] for a separator of one character: the segments between
    the occurrences of [sep], empty ones included; never an empty list. *)
Fixpoint split (sep : Ascii.ascii) (s : string) : list string :=
  match s with
  | EmptyString => [""]
  | String c s' =>
      if Ascii.eqb c sep then "" :: split sep s'
      else match split sep s' with
           | [] => [String c ""]
           | part :: parts => String c part :: parts
           end
  end.

(** Whether the character [sep] occurs in [s]. *)
Fixpoint contains (sep : Ascii.ascii) (s : string) : bool :=
  match s with
  | EmptyString => false
  | String c s' => Ascii.eqb c sep || contains sep s'
  end.

(** Truthiness of a Python string. *)
Definition nonempty (s : string) : bool := negb (String.eqb s "").

(** [parts[-k]] for [k >= 1]; [None] stands for [IndexError]. *)
Definition from_end {A} (parts : list A) (k : nat) : option A :=
  reverse parts !! (k - 1).

(** Lines 176-178: the key of a measurement record, from its header.
    [parts[-1] or (parts[-2] if len(parts) > 1 else header)] *)
Definition measurement_code (header : string) : string :=
  let parts := split "\"%char header in
  let last_part := default "" (from_end parts 1) in
  if nonempty last_part then last_part
  else if (1 <? length parts)%nat then default "" (from_end parts 2)
  else header.

Section measurements.
(** [float(total_str)], with [None] for [ValueError]. *)
Context (float_of_string : string → option float).

(** The body of the loop of [parse_measurements] for one record. *)
Definition measurement_step (quantities : gmap string float) (rec : string)
    : gmap string float :=
  if negb (String.prefix "~M|" rec) then quantities
  else
    let fields := split "|"%char rec in
    if (length fields <? 3)%nat then quantities
    else
      let header := default "" (fields !! 1) in
      let total_str := default "" (from_end fields 1) in
      let code := measurement_code header in
      match float_of_string total_str with
      | None => quantities
      | Some total =>
          <[code := PrimFloat.add (default 0%float (quantities !! code)) total]>
            quantities
      end.

Definition parse_measurements (records : list string) : gmap string float :=
  foldl measurement_step ∅ records.
End measurements.

(** ** String methods *)

(** [c.isspace()] for a character of a text decoded as latin-1: tab to
    carriage return, the four information separators, space, NEL and the
    no-break space. *)
Definition is_space (c : Ascii.ascii) : bool :=
  let n := Ascii.nat_of_ascii c in
  ((9 <=? n) && (n <=? 13) || (28 <=? n) && (n <=? 32)
   || (n =? 133) || (n =? 160))%nat.

(** [s.lstrip(chars)], with [chars] as a predicate. *)
Fixpoint lstrip_chars (chars : Ascii.ascii → bool) (s : string) : string :=
  match s with
  | EmptyString => ""
  | String c s' => if chars c then lstrip_chars chars s' else s
  end.

(** [s.rstrip(chars)] *)
Fixpoint rstrip_chars (chars : Ascii.ascii → bool) (s : string) : string :=
  match s with
  | EmptyString => ""
  | String c s' =>
      match rstrip_chars chars s' with
      | EmptyString => if chars c then "" else String c ""
      | rest => String c rest
      end
  end.

(** [s.strip()] *)
Definition strip (s : string) : string :=
  rstrip_chars is_space (lstrip_chars is_space s).

(** [s.split(sep, maxsplit)] for a separator of one character. *)
Fixpoint split_max (sep : Ascii.ascii) (maxsplit : nat) (s : string)
    : list string :=
  match maxsplit with
  | 0 => [s]
  | S maxsplit' =>
      match s with
      | EmptyString => [""]
      | String c s' =>
          if Ascii.eqb c sep then "" :: split_max sep maxsplit' s'
          else match split_max sep maxsplit s' with
               | [] => [String c ""]
               | part :: parts => String c part :: parts
               end
      end
  end.

(** [sep.join(parts)] *)
Fixpoint join (sep : string) (parts : list string) : string :=
  match parts with
  | [] => ""
  | [part] => part
  | part :: rest => part +:+ sep +:+ join sep rest
  end.

(** [text.replace("\r\n", "\n")] *)
Fixpoint replace_crlf (text : string) : string :=
  match text with
  | EmptyString => ""
  | String c rest =>
      match rest with
      | String c' rest' =>
          if Ascii.eqb c "013"%char && Ascii.eqb c' "010"%char
          then String "010"%char (replace_crlf rest')
          else String c (replace_crlf rest)
      | EmptyString => String c ""
      end
  end.

(** [text.rfind(c)] for one character; [None] stands for -1. *)
Fixpoint rfind (c : Ascii.ascii) (text : string) : option nat :=
  match text with
  | EmptyString => None
  | String a rest =>
      match rfind c rest with
      | Some n => Some (S n)
      | None => if Ascii.eqb a c then Some 0 else None
      end
  end.

(** ** Record extractor *)

(** The terminator of a record: a bar followed by a newline. *)
Definition bar_newline : string := String "|"%char (String "010"%char "").

(** The loop of [load_records].  [text.find(sub, i)] is [String.index i
    sub text], and [text[start:end]] is [String.substring start
    (end - start) text].  Every turn that goes on moves [i] forward, so
    the fuel bounds the number of turns. *)
Fixpoint load_loop (fuel : nat) (text : string) (i : nat)
    (records : list string) : option (list string) :=
  match fuel with
  | 0 => None
  | S fuel =>
      match String.index i "~" text with
      | None => Some records
      | Some start =>
          let found :=
            match String.index start bar_newline text with
            | Some e => Some e
            | None =>
                match rfind "|"%char text with
                | None => None
                | Some last_bar =>
                    if (last_bar <=? start)%nat then None else Some last_bar
                end
            end in
          match found with
          | None => Some records
          | Some e =>
              load_loop fuel text (e + 2)
                (records ++ [String.substring start (e - start) text])
          end
      end
  end.

(** [load_records], from the text [path.read_text] returns. *)
Definition load_records (text : string) : option (list string) :=
  let text := replace_crlf text in
  load_loop (S (String.length text)) text 0 [].

(** ** Concept, text and decomposition decoders *)

Section decoders.
(** [float(s)], with [None] for [ValueError]. *)
Context (float_of_string : string → option float).

(** The body of the loop of [parse_concepts] for one record. *)
Definition concept_step (concepts : gmap string concept) (rec : string)
    : gmap string concept :=
  if negb (String.prefix "~C|" rec) then concepts
  else
    let fields := split "|"%char rec in
    if (length fields <? 2)%nat then concepts
    else
      let code := default "" (fields !! 1) in
      let unit :=
        match fields !! 2 with
        | Some u => if nonempty u then Some u else None
        | None => None
        end in
      let summary := default "" (fields !! 3) in
      let price_str :=
        match fields !! 6 with
        | Some p => if nonempty p then p else "0"
        | None => "0"
        end in
      let price := default 0%float (float_of_string price_str) in
      <[code := Concept code unit summary price]> concepts.

Definition parse_concepts (records : list string) : gmap string concept :=
  foldl concept_step ∅ records.

(** The body of the loop of [parse_texts] for one record. *)
Definition text_step (texts : gmap string string) (rec : string)
    : gmap string string :=
  if negb (String.prefix "~T|" rec) then texts
  else
    let fields := split "|"%char rec in
    if (length fields <? 3)%nat then texts
    else
      let code := default "" (fields !! 1) in
      let long_text := strip (join "|" (drop 2 fields)) in
      <[code := long_text]> texts.

Definition parse_texts (records : list string) : gmap string string :=
  foldl text_step ∅ records.

(** The characters [lstrip("\\|")] removes. *)
Definition bar_or_backslash (c : Ascii.ascii) : bool :=
  Ascii.eqb c "\"%char || Ascii.eqb c "|"%char.

(** The body of the inner loop of [parse_decompositions]: the pair one
    line of the children block contributes, if any. *)
Definition decomp_child (line : string) : option (string * float) :=
  let s := strip line in
  if negb (nonempty s) then None
  else
    let s := lstrip_chars bar_or_backslash s in
    if negb (nonempty s) then None
    else
      match split "\"%char s with
      | [] => None
      | code :: rest =>
          if negb (nonempty code) then None
          else
            let factor :=
              match rest with
              | seg :: _ =>
                  if nonempty seg then default 0%float (float_of_string seg)
                  else 0%float
              | [] => 0%float
              end in
            Some (code, factor)
      end.

(** The body of the outer loop of [parse_decompositions] for one record. *)
Definition decomp_step (decomp : gmap string (list (string * float)))
    (rec : string) : gmap string (list (string * float)) :=
  if negb (String.prefix "~D|" rec) then decomp
  else
    let parts := split_max "|"%char 2 rec in
    if (length parts <? 3)%nat then decomp
    else
      let parent := strip (default "" (parts !! 1)) in
      if negb (nonempty parent) then decomp
      else
        let children_block := default "" (parts !! 2) in
        let lines := split "010"%char children_block in
        let children := omap decomp_child lines in
        if truthy children then <[parent := children]> decomp else decomp.

Definition parse_decompositions (records : list string)
    : gmap string (list (string * float)) :=
  foldl decomp_step ∅ records.

(** ** The conversion *)

(** What a run of [bc3_to_json] comes to: the exception of the root
    resolver, a tree, the recursion running out of fuel, or the empty
    dictionary of the cycle guard handed on as a tree. *)
Inductive outcome :=
  | Raised (e : error)
  | OutOfFuel
  | EmptyDict
  | Tree (t : node).

(** [bc3_to_json], from the text of the file. *)
Definition bc3_to_json (fuel : nat) (text : string) : outcome :=
  match load_records text with
  | None => OutOfFuel
  | Some records =>
      let concepts := parse_concepts records in
      let texts := parse_texts records in
      let decomp := parse_decompositions records in
      let quantities := parse_measurements float_of_string records in
      match detect_root_code decomp with
      | inl e => Raised e
      | inr root_code =>
          match build_node decomp concepts texts quantities
                  fuel root_code 0 "0" ∅ with
          | None => OutOfFuel
          | Some (None, _) => EmptyDict
          | Some (Some tree, _) => Tree (renumber_tree (prune_tree tree))
          end
      end
  end.
End decoders.

(** ** Output name *)

(** [f"{stem} ({i}){suffix}"] *)
Definition nuevo_nombre (stem suffix : string) (i : nat) : string :=
  stem +:+ " (" +:+ str_of_nat i +:+ ")" +:+ suffix.

(** [generar_nombre_incremental].  The files of the folder of [path] are
    the set [existing] of their names; [name], [stem] and [suffix] are
    [path.name], [path.stem] and [path.suffix]. *)
Section output_name.
Context (existing : gset string) (stem suffix : string).

Fixpoint nombre_loop (fuel : nat) (i : nat) : option string :=
  match fuel with
  | 0 => None
  | S fuel =>
      let nuevo := nuevo_nombre stem suffix i in
      if decide (nuevo ∉ existing) then Some nuevo
      else nombre_loop fuel (S i)
  end.

Definition generar_nombre_incremental (fuel : nat) (name : string)
    : option string :=
  if decide (name ∉ existing) then Some name else nombre_loop fuel 1.
End output_name.

(** * The vocabulary of the properties *)

(** ** Walking a tree *)

(** The node reached from [n] by following child positions [p]
    (0-based), if there is one. *)
Fixpoint node_at (p : list nat) (n : node) : option node :=
  match p with
  | [] => Some n
  | i :: p => hijos n !! i ≫= node_at p
  end.

(** The codes of all nodes of a tree, in depth-first order. *)
Fixpoint tree_codes (n : node) : list string :=
  codigo n :: (hijos n ≫= tree_codes).

(** The codes of what a call of [build_node] produced. *)
Definition result_codes (r : option node) : list string :=
  match r with Some n => tree_codes n | None => [] end.

(** ** The builder *)

(** The contract of one call [build_node code depth cd visited] that
    returned [r] and left the shared set as [visited']. *)
Record call_ok (code cd : string) (visited : gset string)
    (r : option node) (visited' : gset string) : Prop := CallOk {
  call_skip : r = None ↔ code ∈ visited;
  call_visited : visited' = visited ∪ list_to_set (result_codes r);
  call_nodup : NoDup (result_codes r);
  call_fresh : ∀ c, c ∈ result_codes r → c ∉ visited;
  call_code : ∀ n, r = Some n → codigo n = code ∧ codigo_decimal n = cd;
}.

(** The codes the builder can ever be called with, starting from [code]. *)
Definition universe (decomp : gmap string (list (string * float)))
    (code : string) : gset string :=
  {[code]} ∪ child_codes decomp.

(** ** The pruner *)

(** A node has signal when its own quantity is not zero or one of its
    children has signal. *)
Fixpoint signal (n : node) : bool :=
  tiene_cantidad n || existsb signal (hijos n).

(** What the loop does with one child: keep it, pruned, or drop it. *)
Definition survivor (prune : node → bool * node) (hijo : node) : option node :=
  let '(keep, hijo') := prune hijo in if keep then Some hijo' else None.

(** [n'] is [n] with some subtrees removed: same fields, and the children
    of [n'] are, in order, what is left of some of the children of [n]. *)
Inductive pruned_of : node → node → Prop :=
  | pruned_of_node n' n kept :
      set_hijos n' (hijos n) = n →
      kept `sublist_of` hijos n →
      Forall2 pruned_of (hijos n') kept →
      pruned_of n' n.

(** ** The renumberer *)

(** The two characters [fmt_02d] produces below one hundred. *)
Definition digit (d : nat) : Ascii.ascii := Ascii.ascii_of_nat (48 + d).

(** ** The measurement decoder *)

(** The last segment of the header that is not empty, as the
    specification words the key. *)
Definition last_nonempty_segment (header : string) : option string :=
  last (filter (λ part, nonempty part = true) (split "\"%char header)).

(** ** The builder as the specification words it *)

(** The builder of the specification's section 4.4, for comparison: the
    set it tests is the ancestor path, handed down by value, so that each
    child recursion receives the path of its parent extended with the
    code of the parent only.  The source does not do this: [build_node]
    above is the source. *)
Section spec_children.
Context (rec : string → nat → string → option (option node)).
Context (depth : nat) (parent_cd : string).

Fixpoint spec_build_children (children_info : list (string * float)) (idx : nat)
    (hijos : list node) : option (list node) :=
  match children_info with
  | [] => Some hijos
  | (child_code, factor) :: rest =>
      match rec child_code (S depth) (child_cd depth parent_cd idx) with
      | None => None
      | Some child_node =>
          spec_build_children rest (S idx)
            (match child_node with
             | Some n => hijos ++ [n]
             | None => hijos
             end)
      end
  end.
End spec_children.

Fixpoint spec_build_node (decomp : gmap string (list (string * float)))
    (concepts : gmap string concept) (texts : gmap string string)
    (quantities : gmap string float) (fuel : nat) (code : string) (depth : nat)
    (codigo_decimal : string) (ancestors : gset string) : option (option node) :=
  match fuel with
  | 0 => None
  | S fuel =>
      if decide (code ∈ ancestors) then Some None
      else
        let concept := concepts !! code in
        let precio := from_option concept_precio 0%float concept in
        let children_info := default [] (decomp !! code) in
        let cantidad := build_cantidad quantities code depth children_info in
        match spec_build_children
                (λ child d ccd,
                   spec_build_node decomp concepts texts quantities fuel
                     child d ccd ({[code]} ∪ ancestors))
                depth codigo_decimal children_info 1 [] with
        | None => None
        | Some hijos =>
            Some (Some (Node codigo_decimal code
                          (determine_naturaleza depth
                             (truthy hijos || truthy children_info))
                          (concept ≫= concept_unidad)
                          (from_option concept_resumen "" concept)
                          (texts !! code) cantidad precio None
                          (PrimFloat.mul cantidad precio) true None None hijos))
        end
  end.

(** ** The decomposition graph *)

(** [b] is listed as a child in the decomposition entry of [a]. *)
Definition edge (decomp : gmap string (list (string * float)))
    (a b : string) : Prop :=
  ∃ chs factor, decomp !! a = Some chs ∧ (b, factor) ∈ chs.

(** [c] can be reached from [root] along decomposition entries. *)
Definition reachable (decomp : gmap string (list (string * float)))
    (root c : string) : Prop :=
  rtc (edge decomp) root c.

(** ** Position codes *)

(** A tree with every position code blanked. *)
Fixpoint forget_cd (n : node) : node :=
  Node "" (codigo n) (naturaleza n) (unidad n) (resumen n)
       (descripcion_larga n) (cantidad n) (precio n) (margen n) (importe n)
       (interno n) (grupo n) (proveedor n) (forget_cd <$> hijos n).

(** The position code of the node reached by the child positions [p]:
    "0" for the root, and below it the two-digit indices (from 1) of the
    path, joined by dots. *)
Definition position_code (p : list nat) : string :=
  match p with
  | [] => "0"
  | _ => join "." ((λ i, fmt_02d (S i)) <$> p)
  end.

(** The position code [renumber_as cd depth] gives to the node reached
    by the child positions [p]. *)
Fixpoint code_from (cd : string) (depth : nat) (p : list nat) : string :=
  match p with
  | [] => cd
  | i :: p => code_from (child_cd depth cd (S i)) (S depth) p
  end.

(** The number a string of decimal digits stands for. *)
Definition nat_of_digits (s : string) : option nat :=
  Nat.of_uint <$> NilEmpty.uint_of_string s.

(** Every edge that leaves one of [codes] ends in [v]. *)
Definition edges_into (decomp : gmap string (list (string * float)))
    (codes : list string) (v : gset string) : Prop :=
  ∀ c b, c ∈ codes → edge decomp c b → b ∈ v.

(** What every entry of the decomposition map satisfies. *)
Definition entry_ok (parent : string) (chs : list (string * float)) : Prop :=
  parent ≠ "" ∧ chs ≠ []
  ∧ Forall (λ ch, ch.1 ≠ "" ∧ contains "\"%char ch.1 = false) chs.

(** The key and the total a record contributes to the measurement
    totals, if it is accepted. *)
Definition measurement_of (float_of_string : string → option float)
    (rec : string) : option (string * float) :=
  if String.prefix "~M|" rec && (3 <=? length (split "|"%char rec))%nat
  then (λ total, (measurement_code (default "" (split "|"%char rec !! 1)), total))
         <$> float_of_string (default "" (from_end (split "|"%char rec) 1))
  else None.

(** The totals the records contribute under [key], in order. *)
Definition totals_of (float_of_string : string → option float)
    (key : string) (records : list string) : list float :=
  omap (λ rec, match measurement_of float_of_string rec with
               | Some (k, total) => if decide (k = key) then Some total else None
               | None => None
               end) records.

(** ** The record extractor *)

Definition CR : Ascii.ascii := "013"%char.
Definition LF : Ascii.ascii := "010"%char.

(** What every record of the result satisfies: it starts with a tilde
    and no bar in it is followed by a newline. *)
Definition record_ok (r : string) : Prop :=
  String.prefix "~" r = true ∧ String.index 0 bar_newline r = None.

(** The text of a file: every record followed by a bar and the line
    end [eol]. *)
Definition write_records (eol : string) (records : list string) : string :=
  foldr (λ r text, r +:+ String "|"%char (eol +:+ text)) "" records.

(** * Sample inputs *)

(** A node without unit, summary and long text. *)
Definition mk (cd code : string) (nat : nat) (cantidad precio : float)
    (hijos : list node) : node :=
  Node cd code nat None "" None cantidad precio None
       (PrimFloat.mul cantidad precio) true None None hijos.

(** ** A sample budget *)

(** OBRA has the chapters CAP1 and CAP2; CAP1 has the item IT0, without
    measurement, and the subchapter SUB1 with the measured item IT1; CAP2
    has no decomposition. *)
Definition sample_decomp : gmap string (list (string * float)) :=
  list_to_map [("OBRA", [("CAP1", 1%float); ("CAP2", 1%float)]);
               ("CAP1", [("IT0", 1%float); ("SUB1", 1%float)]);
               ("SUB1", [("IT1", 1%float)])].

Definition sample_concepts : gmap string concept :=
  list_to_map [("IT1", Concept "IT1" None "" 10%float)].

Definition sample_texts : gmap string string := ∅.

Definition sample_quantities : gmap string float :=
  list_to_map [("IT1", 5%float)].

Definition sample_it1 : node := mk "01.02.01" "IT1" 3 5%float 10%float [].
Definition sample_sub1 : node := mk "01.02" "SUB1" 2 1%float 0%float [sample_it1].
Definition sample_it0 : node := mk "01.01" "IT0" 3 0%float 0%float [].
Definition sample_cap1 : node :=
  mk "01" "CAP1" 1 1%float 0%float [sample_it0; sample_sub1].
Definition sample_cap2 : node := mk "02" "CAP2" 3 1%float 0%float [].

(** The tree [build_node] returns for the sample. *)
Definition sample_tree : node :=
  mk "0" "OBRA" 0 1%float 0%float [sample_cap1; sample_cap2].

(** The set [visited] after the sample is built. *)
Definition sample_visited : gset string :=
  list_to_set ["OBRA"; "CAP1"; "IT0"; "SUB1"; "IT1"; "CAP2"].

(** The sample after [prune_tree] and [renumber_tree]: IT0 is gone and
    SUB1 has moved up to position 01.01. *)
Definition sample_final : node :=
  mk "0" "OBRA" 0 1%float 0%float
     [mk "01" "CAP1" 1 1%float 0%float
         [mk "01.01" "SUB1" 2 1%float 0%float
             [mk "01.01.01" "IT1" 3 5%float 10%float []]];
      mk "02" "CAP2" 3 1%float 0%float []].

(** ** A shared item, and a cycle *)

(** A budget in which the chapters A and B both list the item X. *)
Definition shared_decomp : gmap string (list (string * float)) :=
  list_to_map [("R", [("A", 1%float); ("B", 1%float)]);
               ("A", [("X", 1%float)]);
               ("B", [("X", 1%float)])].

Definition shared_a : node :=
  mk "01" "A" 1 1%float 0%float [mk "01.01" "X" 3 0%float 0%float []].

Definition shared_b : node := mk "02" "B" 1 1%float 0%float [].

(** What [build_node] returns for it: X under A only. *)
Definition shared_tree : node :=
  mk "0" "R" 0 1%float 0%float [shared_a; shared_b].

(** What the builder of the specification returns: X under A and B. *)
Definition shared_spec_tree : node :=
  mk "0" "R" 0 1%float 0%float
     [shared_a;
      mk "02" "B" 1 1%float 0%float [mk "02.01" "X" 3 0%float 0%float []]].

(** A decomposition with a cycle: A lists B and B lists A back. *)
Definition cyclic_decomp : gmap string (list (string * float)) :=
  list_to_map [("R", [("A", 1%float)]);
               ("A", [("B", 1%float)]);
               ("B", [("A", 1%float); ("R", 1%float)])].

(** ** Reading the total of a measurement *)

(** [float(s)] on the non-empty strings of at most fifteen decimal
    digits, where every step below is exact; [None] elsewhere.  It runs
    the examples; the theorems hold for any reading of [float]. *)
Definition float_of_digit (c : Ascii.ascii) : option float :=
  (if Ascii.eqb c "0"%char then Some 0 else if Ascii.eqb c "1"%char then Some 1
   else if Ascii.eqb c "2"%char then Some 2 else if Ascii.eqb c "3"%char then Some 3
   else if Ascii.eqb c "4"%char then Some 4 else if Ascii.eqb c "5"%char then Some 5
   else if Ascii.eqb c "6"%char then Some 6 else if Ascii.eqb c "7"%char then Some 7
   else if Ascii.eqb c "8"%char then Some 8 else if Ascii.eqb c "9"%char then Some 9
   else None)%float.

Fixpoint float_of_digits_from (acc : float) (s : string) : option float :=
  match s with
  | EmptyString => Some acc
  | String c s' =>
      match float_of_digit c with
      | Some d => float_of_digits_from (PrimFloat.add (PrimFloat.mul acc 10) d) s'
      | None => None
      end
  end.

Definition float_of_digits (s : string) : option float :=
  if nonempty s && (String.length s <=? 15)%nat
  then float_of_digits_from 0%float s
  else None.

(** * Lemmas and theorems *)

(** ** Trees *)

(** Induction on trees, with the hypothesis for all children. *)
Lemma node_forall_ind (P : node → Prop) :
  (∀ n, Forall P (hijos n) → P n) → ∀ n, P n.
Proof.
  intros step. fix IH 1. intros n. apply step.
  destruct n as [? ? ? ? ? ? ? ? ? ? ? ? ? hs]. simpl.
  induction hs as [|h hs IHhs]; constructor; [apply IH | exact IHhs].
Qed.

Lemma node_at_cons i p n : node_at (i :: p) n = hijos n !! i ≫= node_at p.
Proof. done. Qed.

Lemma node_at_app p q n :
  node_at (p ++ q) n = node_at p n ≫= node_at q.
Proof.
  revert n. induction p as [|i p IH]; intros n; simpl; [done|].
  destruct (hijos n !! i) as [c|]; simpl; [apply IH | done].
Qed.

Lemma tree_codes_unfold n :
  tree_codes n = codigo n :: (hijos n ≫= tree_codes).
Proof. by destruct n. Qed.

Lemma tree_codes_child n i c :
  hijos n !! i = Some c → tree_codes c `sublist_of` tree_codes n.
Proof.
  intros Hc. rewrite (tree_codes_unfold n). apply sublist_cons.
  apply list_elem_of_split_length in Hc as (l1 & l2 & -> & _).
  rewrite bind_app, bind_cons.
  apply sublist_inserts_l, sublist_inserts_r. done.
Qed.

(** ** What a call of the builder leaves behind *)

Section builder_facts.
Context (decomp : gmap string (list (string * float))).
Context (concepts : gmap string concept).
Context (texts : gmap string string).
Context (quantities : gmap string float).

Local Abbreviation build := (build_node decomp concepts texts quantities).

(** The loop over the children appends to [hijos] the nodes of the calls
    that were not skipped; their codes are new and pairwise distinct,
    and all of them end up in the shared set. *)
Lemma build_children_ok rec depth cd l :
  (∀ child d ccd v r v',
      rec child d ccd v = Some (r, v') → call_ok child ccd v r v') →
  ∀ idx v acc hs v',
    build_children rec depth cd l idx v acc = Some (hs, v') →
    ∃ new, hs = acc ++ new
           ∧ v' = v ∪ list_to_set (new ≫= tree_codes)
           ∧ NoDup (new ≫= tree_codes)
           ∧ ∀ c, c ∈ new ≫= tree_codes → c ∉ v.
Proof.
  intros Hrec. induction l as [|[child factor] l IH]; intros idx v acc hs v' H; simpl in H.
  - simplify_eq. exists []. rewrite app_nil_r. simpl.
    split_and!; [done|set_solver|constructor|set_solver].
  - destruct (rec child (S depth) (child_cd depth cd idx) v) as [[r v1]|] eqn:Hcall;
      [|discriminate].
    apply Hrec in Hcall as [Hskip Hv1 Hnd Hfresh _].
    apply IH in H as (new & -> & -> & Hnd' & Hfresh').
    destruct r as [n|]; simpl in *.
    + exists (n :: new). rewrite <- app_assoc, bind_cons. simpl.
      split_and!; [done| |apply NoDup_app; split_and!; [done| |done] |].
      * subst v1. rewrite list_to_set_app_L. set_solver.
      * intros c Hc Hc'. apply Hfresh' in Hc'. set_solver.
      * intros c [Hc|Hc]%elem_of_app; [by apply Hfresh|].
        apply Hfresh' in Hc. set_solver.
    + exists new. subst v1. split_and!; [done|set_solver|done|].
      intros c Hc%Hfresh'. set_solver.
Qed.

Lemma build_node_ok fuel code depth cd visited r visited' :
  build fuel code depth cd visited = Some (r, visited') →
  call_ok code cd visited r visited'.
Proof.
  revert code depth cd visited r visited'.
  induction fuel as [|fuel IH]; intros code depth cd visited r visited' H;
    simpl in H; [discriminate|].
  destruct (decide (code ∈ visited)) as [Hin|Hout].
  - injection H as <- <-. split; simpl; [done|set_solver|constructor|set_solver|done].
  - destruct (build_children _ _ _ _ _ _ _) as [[hs v1]|] eqn:Hloop; [|discriminate].
    injection H as <- <-.
    eapply build_children_ok in Hloop as (new & Hhs & -> & Hnd & Hfresh); [|exact IH].
    simpl in Hhs. subst hs. split; simpl.
    + split; [discriminate|done].
    + set_solver.
    + constructor; [|done]. intros Hc%Hfresh. set_solver.
    + intros c [->|Hc%Hfresh]%elem_of_cons; set_solver.
    + intros n [= <-]. done.
Qed.
End builder_facts.

(** ** The child codes of a decomposition map *)

Lemma elem_of_child_codes (decomp : gmap string (list (string * float))) c :
  c ∈ child_codes decomp ↔
  ∃ parent chs factor, decomp !! parent = Some chs ∧ (c, factor) ∈ chs.
Proof.
  unfold child_codes. rewrite elem_of_list_to_set, list_elem_of_bind. split.
  - intros ([parent chs] & Hc & Hp). simpl in Hc.
    apply list_elem_of_fmap in Hc as ([c' factor] & -> & Hc).
    apply elem_of_map_to_list in Hp. by exists parent, chs, factor.
  - intros (parent & chs & factor & Hp & Hc). exists (parent, chs). split.
    + simpl. apply list_elem_of_fmap. by exists (c, factor).
    + by apply elem_of_map_to_list.
Qed.

Lemma children_info_child_codes (decomp : gmap string (list (string * float)))
    code c factor :
  (c, factor) ∈ default [] (decomp !! code) → c ∈ child_codes decomp.
Proof.
  destruct (decomp !! code) as [chs|] eqn:Hp; simpl; [|by intros ?%elem_of_nil].
  intros Hc. apply elem_of_child_codes. by exists code, chs, factor.
Qed.

(** ** Fuel *)

Section builder_fuel.
Context (decomp : gmap string (list (string * float))).
Context (concepts : gmap string concept).
Context (texts : gmap string string).
Context (quantities : gmap string float).

Local Abbreviation build := (build_node decomp concepts texts quantities).

Lemma build_children_mono rec rec' depth cd l :
  (∀ child d ccd v x, rec child d ccd v = Some x → rec' child d ccd v = Some x) →
  ∀ idx v acc x,
    build_children rec depth cd l idx v acc = Some x →
    build_children rec' depth cd l idx v acc = Some x.
Proof.
  intros Hrec. induction l as [|[child factor] l IH]; intros idx v acc x H;
    simpl in *; [done|].
  destruct (rec child (S depth) (child_cd depth cd idx) v) as [[r v1]|] eqn:Hcall;
    [|discriminate].
  rewrite (Hrec _ _ _ _ _ Hcall). by apply IH.
Qed.

(** More fuel never changes an answer. *)
Lemma build_node_mono fuel fuel' code depth cd visited x :
  fuel ≤ fuel' →
  build fuel code depth cd visited = Some x →
  build fuel' code depth cd visited = Some x.
Proof.
  revert fuel' code depth cd visited x.
  induction fuel as [|fuel IH]; intros fuel' code depth cd visited x Hle H;
    simpl in H; [discriminate|].
  destruct fuel' as [|fuel']; [lia|]. simpl.
  destruct (decide (code ∈ visited)); [done|].
  destruct (build_children (build fuel) _ _ _ _ _ _) as [[hs v1]|] eqn:Hloop;
    [|discriminate].
  rewrite (build_children_mono (build fuel) (build fuel') _ _ _
             (λ child d ccd v x, IH fuel' child d ccd v x ltac:(lia)) _ _ _ _ Hloop).
  exact H.
Qed.

Lemma build_children_total fuel U depth cd l :
  (∀ child d ccd v,
      child ∈ U → size (U ∖ v) < fuel → is_Some (build fuel child d ccd v)) →
  ∀ idx v acc,
    (∀ c factor, (c, factor) ∈ l → c ∈ U) →
    size (U ∖ v) < fuel →
    is_Some (build_children (build fuel) depth cd l idx v acc).
Proof.
  intros Hrec. induction l as [|[child factor] l IH]; intros idx v acc HU Hv;
    simpl; [done|].
  destruct (Hrec child (S depth) (child_cd depth cd idx) v) as [[r v1] Hcall];
    [eapply HU; left|done|].
  rewrite Hcall. apply IH.
  - intros c f Hc. eapply HU. right. exact Hc.
  - apply build_node_ok in Hcall as [_ -> _ _ _].
    eapply Nat.le_lt_trans; [|exact Hv]. apply subseteq_size. set_solver.
Qed.

(** Every code outside [visited] costs one unit of depth at most. *)
Lemma build_node_total fuel U code depth cd visited :
  child_codes decomp ⊆ U → code ∈ U →
  size (U ∖ visited) < fuel →
  is_Some (build fuel code depth cd visited).
Proof.
  intros HU. revert code depth cd visited.
  induction fuel as [|fuel IH]; intros code depth cd visited Hcode Hsize; [lia|].
  simpl. destruct (decide (code ∈ visited)) as [Hin|Hout]; [done|].
  destruct (build_children_total fuel U depth cd (default [] (decomp !! code))
              (λ child d ccd v, IH child d ccd v) 1 ({[code]} ∪ visited) [])
    as [[hs v1] Hloop].
  - intros c f Hc. apply HU. by eapply children_info_child_codes.
  - assert (U ∖ ({[code]} ∪ visited) ⊂ U ∖ visited) as Hlt%subset_size by set_solver.
    lia.
  - rewrite Hloop. done.
Qed.
End builder_fuel.

(** ** Pruner *)

Lemma set_hijos_hijos n hs : hijos (set_hijos n hs) = hs.
Proof. done. Qed.

Lemma set_hijos_set_hijos n hs hs' : set_hijos (set_hijos n hs) hs' = set_hijos n hs'.
Proof. done. Qed.

Lemma set_hijos_id n : set_hijos n (hijos n) = n.
Proof. by destruct n. Qed.

Lemma tiene_cantidad_set_hijos n hs : tiene_cantidad (set_hijos n hs) = tiene_cantidad n.
Proof. done. Qed.

Lemma signal_unfold n : signal n = tiene_cantidad n || existsb signal (hijos n).
Proof. by destruct n. Qed.

Lemma prune_node_unfold n :
  _prune_node n =
  let '(tiene, hijos_filtrados) :=
    prune_hijos _prune_node (hijos n) (tiene_cantidad n) [] in
  (tiene, set_hijos n hijos_filtrados).
Proof. by destruct n. Qed.

(** The loop as a filter: the flag is raised when a child is kept, and
    the kept children are appended in order. *)
Lemma prune_hijos_spec prune l tiene acc :
  prune_hijos prune l tiene acc =
  (tiene || existsb (λ h, (prune h).1) l, acc ++ omap (survivor prune) l).
Proof.
  revert tiene acc. induction l as [|h l IH]; intros tiene acc; simpl.
  - by rewrite orb_false_r, app_nil_r.
  - unfold survivor at 1. destruct (prune h) as [[] h']; simpl; rewrite IH.
    + by rewrite orb_true_r, <- app_assoc.
    + done.
Qed.

Lemma prune_node_spec n :
  _prune_node n =
  (tiene_cantidad n || existsb (λ h, (_prune_node h).1) (hijos n),
   set_hijos n (omap (survivor _prune_node) (hijos n))).
Proof. by rewrite prune_node_unfold, prune_hijos_spec. Qed.

Lemma prune_tree_spec root :
  prune_tree root = set_hijos root (omap (survivor _prune_node) (hijos root)).
Proof. unfold prune_tree. by rewrite prune_hijos_spec. Qed.

Lemma existsb_ext_Forall {A} (f g : A → bool) l :
  Forall (λ x, f x = g x) l → existsb f l = existsb g l.
Proof. induction 1 as [|x l Hx _ IH]; simpl; [done|]. by rewrite Hx, IH. Qed.

(** The flag [_prune_node] returns is the signal of the node. *)
Lemma prune_node_flag n : (_prune_node n).1 = signal n.
Proof.
  induction n as [n IH] using node_forall_ind.
  rewrite prune_node_spec, signal_unfold. simpl. f_equal.
  by apply existsb_ext_Forall.
Qed.

Lemma elem_of_survivors prune (l : list node) s :
  s ∈ omap (survivor prune) l ↔ ∃ h, h ∈ l ∧ prune h = (true, s).
Proof.
  rewrite list_elem_of_omap. unfold survivor. split.
  - intros (h & Hh & Hs). exists h. split; [done|].
    destruct (prune h) as [[] h']; by simplify_eq.
  - intros (h & Hh & Hs). exists h. split; [done|]. by rewrite Hs.
Qed.

Lemma survivors_cons prune h (l : list node) :
  omap (survivor prune) (h :: l) =
  if (prune h).1 then (prune h).2 :: omap (survivor prune) l
  else omap (survivor prune) l.
Proof.
  change (omap (survivor prune) (h :: l))
    with (match survivor prune h with
          | Some y => y :: omap (survivor prune) l
          | None => omap (survivor prune) l
          end).
  unfold survivor. by destruct (prune h) as [[] h'].
Qed.

(** The survivors of a loop all survive a second loop, unchanged. *)
Lemma survivors_idemp (l : list node) :
  Forall (λ h, _prune_node (_prune_node h).2 = _prune_node h) l →
  omap (survivor _prune_node) (omap (survivor _prune_node) l)
    = omap (survivor _prune_node) l
  ∧ existsb (λ h, (_prune_node h).1) (omap (survivor _prune_node) l)
    = existsb (λ h, (_prune_node h).1) l.
Proof.
  induction 1 as [|h l Hh _ [IHl IHf]]; [done|].
  rewrite survivors_cons. simpl existsb.
  destruct (_prune_node h) as [[] h'] eqn:Hp; cbn [fst snd] in *.
  - rewrite survivors_cons, Hh. cbn [fst snd existsb]. rewrite Hh, IHl. done.
  - done.
Qed.

(** Pruning a second time finds nothing more to remove. *)
Lemma prune_node_idemp n : _prune_node (_prune_node n).2 = _prune_node n.
Proof.
  induction n as [n IH] using node_forall_ind.
  rewrite (prune_node_spec n). cbn [snd].
  rewrite prune_node_spec, set_hijos_hijos, set_hijos_set_hijos, tiene_cantidad_set_hijos.
  destruct (survivors_idemp _ IH) as [-> ->]. done.
Qed.

Lemma signal_prune_node n : signal (_prune_node n).2 = signal n.
Proof. by rewrite <- !prune_node_flag, prune_node_idemp. Qed.

Lemma hijos_prune_node n :
  hijos (_prune_node n).2 = omap (survivor _prune_node) (hijos n).
Proof. by rewrite prune_node_spec. Qed.

Lemma hijos_prune_tree root :
  hijos (prune_tree root) = omap (survivor _prune_node) (hijos root).
Proof. by rewrite prune_tree_spec. Qed.

(** A kept child is the pruned form of a child that had signal. *)
Lemma survivor_lookup (l : list node) i c :
  omap (survivor _prune_node) l !! i = Some c →
  ∃ h, h ∈ l ∧ signal h = true ∧ c = (_prune_node h).2.
Proof.
  intros Hc%list_elem_of_lookup_2%elem_of_survivors. destruct Hc as (h & Hh & Hp).
  exists h. rewrite <- prune_node_flag, Hp. done.
Qed.

(** Everything that is left below a node that survived has signal. *)
Lemma prune_node_remaining n :
  signal n = true →
  ∀ p m, node_at p (_prune_node n).2 = Some m → signal m = true.
Proof.
  induction n as [n IH] using node_forall_ind. intros Hn [|i p] m; simpl.
  - intros [= <-]. by rewrite signal_prune_node.
  - rewrite hijos_prune_node.
    destruct (omap _ _ !! i) as [c|] eqn:Hc; [|done]. simpl.
    apply survivor_lookup in Hc as (h & Hh & Hsig & ->).
    rewrite Forall_forall in IH. by apply IH.
Qed.

(** Signal, spelled out: some node of the subtree, the node itself
    included, has a quantity that is not zero. *)
Lemma signal_true_iff n :
  signal n = true ↔ ∃ q m, node_at q n = Some m ∧ tiene_cantidad m = true.
Proof.
  split.
  - induction n as [n IH] using node_forall_ind.
    rewrite signal_unfold, orb_true_iff, existsb_exists.
    intros [Hn|(h & Hh & Hsig)].
    + by exists [], n.
    + apply list_elem_of_In in Hh. rewrite Forall_forall in IH.
      destruct (IH h Hh Hsig) as (q & m & Hq & Hm).
      apply list_elem_of_lookup_1 in Hh as [i Hi].
      exists (i :: q), m. simpl. by rewrite Hi.
  - intros (q & m & Hq & Hm). revert n Hq.
    induction q as [|i q IH]; intros n; simpl.
    + intros [= ->]. by rewrite signal_unfold, Hm.
    + destruct (hijos n !! i) as [c|] eqn:Hi; [|done]. simpl. intros Hq%IH.
      rewrite signal_unfold, orb_true_iff, existsb_exists. right.
      exists c. split; [|done]. by eapply list_elem_of_In, list_elem_of_lookup_2.
Qed.

(** The kept children are what is left of a subsequence of the children. *)
Lemma survivors_pruned_of (l : list node) :
  Forall (λ h, pruned_of (_prune_node h).2 h) l →
  ∃ kept, kept `sublist_of` l
          ∧ Forall2 pruned_of (omap (survivor _prune_node) l) kept.
Proof.
  induction 1 as [|h l Hh _ (kept & Hsub & Hall)].
  - exists []. by split; [|constructor].
  - rewrite survivors_cons. destruct (_prune_node h).1.
    + exists (h :: kept). split; [by apply sublist_skip|by constructor].
    + exists kept. split; [by apply sublist_cons|done].
Qed.

Lemma prune_node_pruned_of n : pruned_of (_prune_node n).2 n.
Proof.
  induction n as [n IH] using node_forall_ind.
  destruct (survivors_pruned_of _ IH) as (kept & Hsub & Hall).
  apply (pruned_of_node _ _ kept); [|done|by rewrite hijos_prune_node].
  rewrite prune_node_spec. simpl. by rewrite set_hijos_set_hijos, set_hijos_id.
Qed.

Lemma prune_tree_pruned_of root : pruned_of (prune_tree root) root.
Proof.
  destruct (survivors_pruned_of (hijos root)) as (kept & Hsub & Hall).
  { apply Forall_forall. intros h _. apply prune_node_pruned_of. }
  apply (pruned_of_node _ _ kept); [|done|by rewrite hijos_prune_tree].
  rewrite prune_tree_spec. by rewrite set_hijos_set_hijos, set_hijos_id.
Qed.

(** The codes left after pruning are a subsequence of the codes before. *)
Lemma survivors_codes (l : list node) :
  Forall (λ h, tree_codes (_prune_node h).2 `sublist_of` tree_codes h) l →
  (omap (survivor _prune_node) l ≫= tree_codes) `sublist_of` (l ≫= tree_codes).
Proof.
  induction 1 as [|h l Hh _ IHl]; [done|].
  rewrite survivors_cons, bind_cons. destruct (_prune_node h).1.
  - rewrite bind_cons. by apply sublist_app.
  - by apply sublist_inserts_l.
Qed.

Lemma prune_node_codes n :
  tree_codes (_prune_node n).2 `sublist_of` tree_codes n.
Proof.
  induction n as [n IH] using node_forall_ind.
  rewrite (tree_codes_unfold n), tree_codes_unfold, hijos_prune_node.
  rewrite prune_node_spec. simpl. apply sublist_skip. by apply survivors_codes.
Qed.

Lemma prune_tree_codes root :
  tree_codes (prune_tree root) `sublist_of` tree_codes root.
Proof.
  rewrite (tree_codes_unfold root), tree_codes_unfold, hijos_prune_tree.
  rewrite prune_tree_spec. simpl. apply sublist_skip, survivors_codes.
  apply Forall_forall. intros h _. apply prune_node_codes.
Qed.

(** ** Renumberer *)

Lemma renumber_as_unfold cd depth n :
  renumber_as cd depth n =
  Node cd (codigo n) (naturaleza n) (unidad n) (resumen n)
       (descripcion_larga n) (cantidad n) (precio n) (margen n) (importe n)
       (interno n) (grupo n) (proveedor n)
       (renumber_hijos renumber_as depth cd (hijos n) 1).
Proof. by destruct n. Qed.

Lemma codigo_decimal_renumber_as cd depth n :
  codigo_decimal (renumber_as cd depth n) = cd.
Proof. by rewrite renumber_as_unfold. Qed.

Lemma hijos_renumber_as cd depth n :
  hijos (renumber_as cd depth n) = renumber_hijos renumber_as depth cd (hijos n) 1.
Proof. by rewrite renumber_as_unfold. Qed.

(** The child at position [i] of the loop gets the index [idx + i]. *)
Lemma renumber_hijos_lookup renumber depth cd hs idx i :
  renumber_hijos renumber depth cd hs idx !! i =
  renumber (child_cd depth cd (idx + i)) (S depth) <$> hs !! i.
Proof.
  revert idx i. induction hs as [|h hs IH]; intros idx [|i]; simpl; try done.
  - by rewrite Nat.add_0_r.
  - rewrite IH. by rewrite Nat.add_succ_r.
Qed.

(** Every node of a renumbered tree is a renumbered node, at its depth. *)
Lemma node_at_renumber_as p :
  ∀ cd depth n m,
    node_at p (renumber_as cd depth n) = Some m →
    ∃ cdm m0, node_at p n = Some m0 ∧ m = renumber_as cdm (depth + length p) m0.
Proof.
  induction p as [|i p IH]; intros cd depth n m; simpl.
  - intros [= <-]. exists cd, n. by rewrite Nat.add_0_r.
  - rewrite hijos_renumber_as, renumber_hijos_lookup.
    destruct (hijos n !! i) as [h|]; [|done]. simpl.
    intros (cdm & m0 & Hm0 & ->)%IH. exists cdm, m0.
    by rewrite Nat.add_succ_r.
Qed.

Lemma fmt_02d_two_digits idx :
  idx < 100 →
  fmt_02d idx = String (digit (idx / 10)) (String (digit (idx mod 10)) "").
Proof.
  intros Hidx.
  assert (Forall (λ i, fmt_02d i
                       = String (digit (i / 10)) (String (digit (i mod 10)) ""))
                 (seq 0 100)) as Hall.
  { apply Forall_forall. intros i Hi. apply elem_of_seq in Hi.
    do 100 (destruct i as [|i]; [vm_compute; reflexivity|]). lia. }
  rewrite Forall_forall in Hall. apply Hall, elem_of_seq. lia.
Qed.

Lemma split_no_sep sep s : contains sep s = false → split sep s = [s].
Proof.
  induction s as [|c s IH]; simpl; [done|].
  destruct (Ascii.eqb c sep); simpl; [done|]. intros Hs. by rewrite IH.
Qed.

Lemma split_nonnil sep s : split sep s ≠ [].
Proof.
  destruct s as [|c s]; simpl; [done|].
  destruct (Ascii.eqb c sep); [done|]. by destruct (split sep s).
Qed.

Lemma nonempty_true s : nonempty s = true ↔ s ≠ "".
Proof.
  unfold nonempty. rewrite negb_true_iff. split.
  - intros H ->. by rewrite String.eqb_refl in H.
  - intros H. by apply String.eqb_neq.
Qed.

Lemma measurement_code_no_sep header :
  contains "\"%char header = false → measurement_code header = header.
Proof.
  intros H. unfold measurement_code. rewrite (split_no_sep _ _ H). simpl.
  destruct (nonempty header) eqn:Hne; [done|]. simpl. done.
Qed.

Lemma measurement_code_last header seg :
  from_end (split "\"%char header) 1 = Some seg → seg ≠ "" →
  measurement_code header = seg.
Proof.
  intros Hlast Hseg%nonempty_true. unfold measurement_code.
  rewrite Hlast. simpl. by rewrite Hseg.
Qed.

Lemma measurement_code_second_last header seg :
  from_end (split "\"%char header) 1 = Some "" →
  from_end (split "\"%char header) 2 = Some seg →
  measurement_code header = seg.
Proof.
  intros Hlast Hprev. unfold measurement_code. rewrite Hlast, Hprev. simpl.
  assert (1 < length (split "\"%char header)) as Hlen.
  { unfold from_end in Hprev. apply lookup_lt_Some in Hprev.
    by rewrite length_reverse in Hprev. }
  apply Nat.ltb_lt in Hlen. by rewrite Hlen.
Qed.

Lemma parse_measurements_snoc float_of_string records rec :
  parse_measurements float_of_string (records ++ [rec]) =
  measurement_step float_of_string (parse_measurements float_of_string records) rec.
Proof. unfold parse_measurements. by rewrite foldl_snoc. Qed.

(** ** Every node of a built tree comes from a call of the builder *)

Section builder_nodes.
Context (decomp : gmap string (list (string * float))).
Context (concepts : gmap string concept).
Context (texts : gmap string string).
Context (quantities : gmap string float).

Local Abbreviation build := (build_node decomp concepts texts quantities).

(** A call that returns a node went past the guard, ran the loop over
    the decomposition entry and assembled the node from its outcome. *)
Lemma build_node_Some fuel code depth cd visited t visited' :
  build fuel code depth cd visited = Some (Some t, visited') →
  (code ∉ visited)
  ∧ codigo t = code
  ∧ codigo_decimal t = cd
  ∧ cantidad t = build_cantidad quantities code depth (default [] (decomp !! code))
  ∧ precio t = from_option concept_precio 0%float (concepts !! code)
  ∧ importe t = PrimFloat.mul (cantidad t) (precio t)
  ∧ naturaleza t =
      determine_naturaleza depth
        (truthy (hijos t) || truthy (default [] (decomp !! code)))
  ∧ ∃ fuel', fuel = S fuel'
      ∧ build_children (build fuel') depth cd (default [] (decomp !! code)) 1
          ({[code]} ∪ visited) [] = Some (hijos t, visited').
Proof.
  destruct fuel as [|fuel]; simpl; [done|].
  destruct (decide (code ∈ visited)); [done|].
  destruct (build_children _ _ _ _ _ _ _) as [[hs v1]|] eqn:Hloop; [|done].
  intros [= <- <-]. simpl. split_and!; try done. by exists fuel.
Qed.

(** Every node the loop adds to [hijos] was returned by one of its calls. *)
Lemma build_children_elem rec depth cd l :
  ∀ idx v acc hs v' c,
    build_children rec depth cd l idx v acc = Some (hs, v') →
    c ∈ hs →
    c ∈ acc ∨ ∃ child ccd v0 v1, rec child (S depth) ccd v0 = Some (Some c, v1).
Proof.
  induction l as [|[child factor] l IH]; intros idx v acc hs v' c H Hc; simpl in H.
  - simplify_eq. by left.
  - destruct (rec child (S depth) (child_cd depth cd idx) v) as [[r v1]|] eqn:Hcall;
      [|done].
    destruct (IH _ _ _ _ _ _ H Hc) as [Hacc|?]; [|by right].
    destruct r as [n|]; [|by left].
    apply elem_of_app in Hacc as [?|Hn%list_elem_of_singleton]; [by left|].
    subst c. right. by exists child, (child_cd depth cd idx), v, v1.
Qed.

Lemma build_node_at p :
  ∀ fuel code depth cd visited t visited' n,
    build fuel code depth cd visited = Some (Some t, visited') →
    node_at p t = Some n →
    ∃ fuel0 cd0 v0 v1,
      build fuel0 (codigo n) (depth + length p) cd0 v0 = Some (Some n, v1).
Proof.
  induction p as [|i p IH]; intros fuel code depth cd visited t visited' n Ht; simpl.
  - intros [= <-]. exists fuel, cd, visited, visited'.
    apply build_node_Some in Ht as Hf. destruct Hf as (_ & -> & _).
    by rewrite Nat.add_0_r.
  - destruct (hijos t !! i) as [c|] eqn:Hc; [|done]. simpl. intros Hn.
    apply build_node_Some in Ht as (_ & _ & _ & _ & _ & _ & _ & fuel' & -> & Hloop).
    apply list_elem_of_lookup_2 in Hc.
    destruct (build_children_elem _ _ _ _ _ _ _ _ _ _ Hloop Hc)
      as [[]%elem_of_nil|(child & ccd & v0 & v1 & Hcall)].
    apply build_node_Some in Hcall as Hf. destruct Hf as (_ & Hcode & _).
    rewrite <- Hcode in Hcall.
    destruct (IH _ _ _ _ _ _ _ _ Hcall Hn) as (fuel0 & cd0 & v2 & v3 & Hbuilt).
    exists fuel0, cd0, v2, v3. by rewrite Nat.add_succ_r.
Qed.
End builder_nodes.

Example sample_root : detect_root_code sample_decomp = inr "OBRA".
Proof. vm_compute. reflexivity. Qed.

Example sample_built :
  build_node sample_decomp sample_concepts sample_texts sample_quantities
    4 "OBRA" 0 "0" ∅ = Some (Some sample_tree, sample_visited).
Proof. vm_compute. reflexivity. Qed.

Example sample_pipeline : renumber_tree (prune_tree sample_tree) = sample_final.
Proof. vm_compute. reflexivity. Qed.

(** ** Quantity and nature of the built nodes *)

(** C2: every node of a tree returned by the builder has the quantity the
    priority rule gives for its depth and its code: 1.0 at depth 0, 1.0 at
    depth 1, 1.0 at depth 2 or more when the decomposition entry of its
    code is not empty, and otherwise the measurement total of its code,
    or 0.0 when there is none. *)
Theorem build_node_quantity decomp concepts texts quantities
    fuel code depth cd visited t visited' p n :
  build_node decomp concepts texts quantities fuel code depth cd visited
    = Some (Some t, visited') →
  node_at p t = Some n →
  (depth + length p = 0 → cantidad n = 1%float)
  ∧ (depth + length p = 1 → cantidad n = 1%float)
  ∧ (2 ≤ depth + length p → default [] (decomp !! codigo n) ≠ [] →
     cantidad n = 1%float)
  ∧ (2 ≤ depth + length p → default [] (decomp !! codigo n) = [] →
     cantidad n = default 0%float (quantities !! codigo n)).
Proof.
  intros Ht Hn.
  destruct (build_node_at _ _ _ _ _ _ _ _ _ _ _ _ _ Ht Hn) as (fuel0 & cd0 & v0 & v1 & Hcall).
  apply build_node_Some in Hcall as (_ & _ & _ & -> & _).
  unfold build_cantidad. split_and!.
  - by intros ->.
  - by intros ->.
  - intros Hd Hentry.
    destruct (depth + length p) as [|[|d]]; simpl; [done|done|].
    by destruct (default [] (decomp !! codigo n)).
  - intros Hd ->. destruct (depth + length p) as [|[|d]]; [lia|lia|]. simpl.
    by destruct (quantities !! codigo n).
Qed.

(** In the sample, IT1 sits at depth 3 below OBRA, CAP1 and SUB1, has no
    decomposition and a measurement total of 5. *)
Lemma build_node_quantity_witness :
  node_at [0; 1; 0] sample_tree = Some sample_it1
  ∧ cantidad sample_it1 = default 0%float (sample_quantities !! "IT1").
Proof.
  split; [reflexivity|].
  refine (proj2 (proj2 (proj2
    (build_node_quantity sample_decomp sample_concepts sample_texts
       sample_quantities 4 "OBRA" 0 "0" ∅ sample_tree sample_visited
       [0; 1; 0] sample_it1 _ _))) _ _).
  - vm_compute. reflexivity.
  - reflexivity.
  - simpl. lia.
  - vm_compute. reflexivity.
Defined.

(** C6: in a tree returned by the builder, the node at depth 0 has
    nature Root; below it, a node whose code has a non-empty
    decomposition entry has nature Chapter at depth 1 and Subchapter at
    depth 2 or more, and a node whose code has no decomposition entry
    (or an empty one) has nature LineItem. *)
Theorem build_node_nature decomp concepts texts quantities
    fuel code depth cd visited t visited' p n :
  build_node decomp concepts texts quantities fuel code depth cd visited
    = Some (Some t, visited') →
  node_at p t = Some n →
  (depth + length p = 0 → naturaleza n = Root)
  ∧ (depth + length p = 1 → default [] (decomp !! codigo n) ≠ [] →
     naturaleza n = Chapter)
  ∧ (2 ≤ depth + length p → default [] (decomp !! codigo n) ≠ [] →
     naturaleza n = Subchapter)
  ∧ (1 ≤ depth + length p → default [] (decomp !! codigo n) = [] →
     naturaleza n = LineItem).
Proof.
  intros Ht Hn.
  destruct (build_node_at _ _ _ _ _ _ _ _ _ _ _ _ _ Ht Hn) as (fuel0 & cd0 & v0 & v1 & Hcall).
  apply build_node_Some in Hcall
    as (_ & _ & _ & _ & _ & _ & -> & fuel' & _ & Hloop).
  unfold determine_naturaleza. split_and!.
  - by intros ->.
  - intros -> Hentry. simpl.
    destruct (default [] (decomp !! codigo n)); [done|]. by rewrite orb_true_r.
  - intros Hd Hentry. destruct (depth + length p) as [|[|d]]; [lia|lia|]. simpl.
    destruct (default [] (decomp !! codigo n)); [done|]. by rewrite orb_true_r.
  - intros Hd Hentry. rewrite Hentry in Hloop. simpl in Hloop.
    injection Hloop as <- _. rewrite Hentry. simpl.
    destruct (depth + length p) as [|d]; [lia|done].
Qed.

(** In the sample, SUB1 sits at depth 2 and has a decomposition entry. *)
Lemma build_node_nature_witness :
  node_at [0; 1] sample_tree = Some sample_sub1
  ∧ naturaleza sample_sub1 = Subchapter.
Proof.
  split; [reflexivity|].
  refine (proj1 (proj2 (proj2
    (build_node_nature sample_decomp sample_concepts sample_texts
       sample_quantities 4 "OBRA" 0 "0" ∅ sample_tree sample_visited
       [0; 1] sample_sub1 _ _))) _ _).
  - vm_compute. reflexivity.
  - reflexivity.
  - simpl. lia.
  - vm_compute. discriminate.
Defined.

(** The depth test comes first: OBRA has a decomposition entry and, at
    depth 0, nature Root. *)
Example build_node_nature_root :
  default [] (sample_decomp !! codigo sample_tree) ≠ []
  ∧ naturaleza sample_tree = Root.
Proof. split; [vm_compute; discriminate|reflexivity]. Qed.

(** ** Root resolver *)

Lemma elem_of_roots (decomp : gmap string (list (string * float))) x :
  x ∈ roots decomp ↔
  is_Some (decomp !! x)
  ∧ ¬ ∃ parent chs factor, decomp !! parent = Some chs ∧ (x, factor) ∈ chs.
Proof.
  unfold roots. by rewrite elem_of_difference, elem_of_dom, elem_of_child_codes.
Qed.

(** C3: the roots are the keys of the decomposition map that no value
    sequence lists as a child; [detect_root_code] raises its error exactly
    when there is none, and returns the root when there is exactly one. *)
Theorem detect_root_code_spec (decomp : gmap string (list (string * float))) :
  (∀ x, x ∈ roots decomp ↔
        is_Some (decomp !! x)
        ∧ ¬ ∃ parent chs factor, decomp !! parent = Some chs ∧ (x, factor) ∈ chs)
  ∧ ((∃ e, detect_root_code decomp = inl e) ↔ roots decomp = ∅)
  ∧ (∀ r, roots decomp = {[r]} → detect_root_code decomp = inr r).
Proof.
  split_and!.
  - apply elem_of_roots.
  - unfold detect_root_code. split.
    + intros [e He]. destruct (elements (roots decomp)) eqn:Hel; [|done].
      by apply leibniz_equiv, elements_empty_iff.
    + intros ->. rewrite elements_empty. by eexists.
  - intros r Hr. unfold detect_root_code. by rewrite Hr, elements_singleton.
Qed.

(** A map in which every parent is also a child has no root. *)
Example detect_root_code_cycle :
  detect_root_code (list_to_map [("A", [("B", 1%float)]); ("B", [("A", 1%float)])])
  = inl (RuntimeError no_root_msg).
Proof. vm_compute. reflexivity. Qed.

(** ** The visited set: uniqueness of codes and termination *)

Lemma node_at_codes p :
  ∀ t a, node_at p t = Some a → tree_codes a `sublist_of` tree_codes t.
Proof.
  induction p as [|i p IH]; intros t a; simpl.
  - by intros [= ->].
  - destruct (hijos t !! i) as [c|] eqn:Hc; [|done]. simpl. intros Ha%IH.
    etrans; [exact Ha|]. by eapply tree_codes_child.
Qed.

Lemma codigo_tree_codes n : codigo n ∈ tree_codes n.
Proof. rewrite tree_codes_unfold. by left. Qed.

(** In a tree whose codes are pairwise distinct, no node has the code of
    one of its ancestors. *)
Lemma nodup_no_ancestor t p q a b :
  NoDup (tree_codes t) → q ≠ [] →
  node_at p t = Some a → node_at (p ++ q) t = Some b →
  codigo b ≠ codigo a.
Proof.
  intros Hnd Hq Ha Hb. rewrite node_at_app, Ha in Hb. simpl in Hb.
  apply node_at_codes in Ha. apply (sublist_NoDup _ _ Hnd) in Ha.
  destruct q as [|i q]; [done|]. simpl in Hb.
  destruct (hijos a !! i) as [c|] eqn:Hc; [|done]. simpl in Hb.
  rewrite tree_codes_unfold in Ha. apply NoDup_cons in Ha as [Hfresh _].
  intros Heq. apply Hfresh. rewrite <- Heq. apply list_elem_of_bind.
  exists c. split; [|by eapply list_elem_of_lookup_2].
  apply node_at_codes in Hb. eapply elem_of_sublist; [|exact Hb].
  apply codigo_tree_codes.
Qed.

(** C1, as stated, fails on the shared item: when the loop of B reaches
    X, the ancestors of that call are R and B, X is not one of them, and
    yet X is skipped and B is left without children.  The builder that
    hands the ancestor path down by value builds X a second time. *)
Lemma build_node_guard_counterexample :
  build_node shared_decomp ∅ ∅ ∅ 3 "R" 0 "0" ∅
    = Some (Some shared_tree, list_to_set ["R"; "A"; "X"; "B"])
  ∧ node_at [1] shared_tree = Some shared_b
  ∧ codigo shared_b = "B"
  ∧ default [] (shared_decomp !! "B") = [("X", 1%float)]
  ∧ ("X" ∉ ["R"; "B"])
  ∧ hijos shared_b = []
  ∧ spec_build_node shared_decomp ∅ ∅ ∅ 3 "R" 0 "0" ∅ = Some (Some shared_spec_tree)
  ∧ tree_codes shared_tree = ["R"; "A"; "X"; "B"]
  ∧ tree_codes shared_spec_tree = ["R"; "A"; "X"; "B"; "X"].
Proof.
  split_and!; try (vm_compute; reflexivity).
  intros [[=]|[[=]|[]%elem_of_nil]%elem_of_cons]%elem_of_cons.
Qed.

(** C1, as amended: a call of the builder is skipped exactly when its
    code is already in the shared visited set; the set a call leaves
    behind is the set it found plus the codes of all nodes it built; so
    any later call, which finds at least that set, skips every code that
    was built in the completed branch. *)
Theorem build_node_guard decomp concepts texts quantities
    fuel code depth cd visited r visited' :
  build_node decomp concepts texts quantities fuel code depth cd visited
    = Some (r, visited') →
  (r = None ↔ code ∈ visited)
  ∧ visited' = visited ∪ list_to_set (result_codes r)
  ∧ (∀ fuel2 code2 depth2 cd2 visited2 r2 visited2',
       code2 ∈ result_codes r → visited' ⊆ visited2 →
       build_node decomp concepts texts quantities fuel2 code2 depth2 cd2 visited2
         = Some (r2, visited2') →
       r2 = None).
Proof.
  intros [Hskip Hv _ _ _]%build_node_ok. split_and!; [done|done|].
  intros fuel2 code2 depth2 cd2 visited2 r2 visited2' Hc Hsub
         [Hskip2 _ _ _ _]%build_node_ok.
  apply Hskip2. set_solver.
Qed.

(** In the shared budget, the call for A finds R in the set and leaves
    R, A and X; the call for X that the loop of B makes later finds X in
    the set and is skipped. *)
Lemma build_node_guard_witness :
  build_node shared_decomp ∅ ∅ ∅ 2 "A" 1 "01" {["R"]}
    = Some (Some shared_a, list_to_set ["R"; "A"; "X"])
  ∧ (list_to_set ["R"; "A"; "X"] : gset string)
    = {["R"]} ∪ list_to_set (tree_codes shared_a)
  ∧ (∀ r2 visited2',
       build_node shared_decomp ∅ ∅ ∅ 1 "X" 2 "02.01"
         (list_to_set ["R"; "A"; "X"; "B"]) = Some (r2, visited2') →
       r2 = None).
Proof.
  assert (build_node shared_decomp ∅ ∅ ∅ 2 "A" 1 "01" {["R"]}
          = Some (Some shared_a, list_to_set ["R"; "A"; "X"])) as Hcall
    by (vm_compute; reflexivity).
  destruct (build_node_guard _ _ _ _ _ _ _ _ _ _ _ Hcall) as (_ & Hleft & Hlater).
  split_and!; [exact Hcall|exact Hleft|].
  intros r2 visited2' Hx. refine (Hlater _ _ _ _ _ _ _ _ _ Hx).
  - change (result_codes (Some shared_a)) with ["A"; "X"]. set_solver.
  - set_solver.
Defined.

(** C9: every call of the builder returns.  The recursion depth a call
    needs is at most the number of codes of the universe that are not
    yet visited, plus one; with that much fuel or more the answer is the
    same.  In the tree returned, no node carries the code of one of its
    ancestors: a child code that is on the recursion path yields no
    node. *)
Theorem build_node_terminates decomp concepts texts quantities
    code depth cd visited :
  ∃ r visited',
    (∀ fuel,
        size (universe decomp code ∖ visited) < fuel →
        build_node decomp concepts texts quantities fuel code depth cd visited
          = Some (r, visited'))
    ∧ (code ∈ visited → r = None)
    ∧ (∀ t p q a b,
         r = Some t → q ≠ [] →
         node_at p t = Some a → node_at (p ++ q) t = Some b →
         codigo b ≠ codigo a).
Proof.
  destruct (build_node_total decomp concepts texts quantities
              (S (size (universe decomp code ∖ visited)))
              (universe decomp code) code depth cd visited)
    as [[r visited'] Hrun]; [unfold universe; set_solver..|lia|].
  exists r, visited'. apply build_node_ok in Hrun as Hok.
  destruct Hok as [Hskip _ Hnd _ _]. split_and!.
  - intros fuel Hfuel. eapply build_node_mono; [|exact Hrun]. lia.
  - apply Hskip.
  - intros t p q a b -> Hq Ha Hb. by eapply nodup_no_ancestor.
Qed.

Example cyclic_built :
  build_node cyclic_decomp ∅ ∅ ∅ 4 "R" 0 "0" ∅
  = Some (Some (mk "0" "R" 0 1%float 0%float
                  [mk "01" "A" 1 1%float 0%float
                      [mk "01.01" "B" 2 1%float 0%float []]]),
          list_to_set ["R"; "A"; "B"]).
Proof. vm_compute. reflexivity. Qed.

(** C10: in a tree returned by the builder, the codes of all nodes are
    pairwise distinct, and they still are after pruning: every code of
    the tree was outside the visited set when its node was built, and
    the call leaves all of them in the set. *)
Theorem build_node_codes_unique decomp concepts texts quantities
    fuel code depth cd visited t visited' :
  build_node decomp concepts texts quantities fuel code depth cd visited
    = Some (Some t, visited') →
  NoDup (tree_codes t)
  ∧ NoDup (tree_codes (prune_tree t))
  ∧ (∀ c, c ∈ tree_codes t → c ∉ visited)
  ∧ visited' = visited ∪ list_to_set (tree_codes t).
Proof.
  intros [_ Hv Hnd Hfresh _]%build_node_ok. simpl in *.
  split_and!; [done| |done|done].
  eapply sublist_NoDup; [exact Hnd|]. apply prune_tree_codes.
Qed.

(** In the shared budget, X is listed by A and by B and labels one node. *)
Lemma build_node_codes_unique_witness :
  tree_codes shared_tree = ["R"; "A"; "X"; "B"]
  ∧ NoDup (tree_codes shared_tree)
  ∧ NoDup (tree_codes (prune_tree shared_tree)).
Proof.
  split; [reflexivity|].
  destruct (build_node_codes_unique shared_decomp ∅ ∅ ∅ 3 "R" 0 "0" ∅
              shared_tree (list_to_set ["R"; "A"; "X"; "B"]))
    as (Hbuilt & Hpruned & _).
  - vm_compute. reflexivity.
  - exact (conj Hbuilt Hpruned).
Defined.

(** ** Pruner: the invariant and idempotence *)

(** C4: after [prune_tree], every node below the root has a quantity
    that is not zero, in itself or in one of its descendants; the root is
    returned with all its fields but [hijos] untouched, whatever its
    quantity and however few children are left; and what is left of the
    children of every node is, in order, a subsequence of what was
    there. *)
Theorem prune_tree_invariant root :
  (∀ p n,
      p ≠ [] → node_at p (prune_tree root) = Some n →
      ∃ q m, node_at q n = Some m ∧ tiene_cantidad m = true)
  ∧ set_hijos (prune_tree root) (hijos root) = root
  ∧ pruned_of (prune_tree root) root.
Proof.
  split_and!.
  - intros [|i p] n Hp; [done|]. rewrite node_at_cons, hijos_prune_tree.
    destruct (omap _ _ !! i) as [c|] eqn:Hc; [|done]. simpl. intros Hn.
    apply survivor_lookup in Hc as (h & _ & Hsig & ->).
    apply signal_true_iff. by eapply prune_node_remaining.
  - rewrite prune_tree_spec. by rewrite set_hijos_set_hijos, set_hijos_id.
  - apply prune_tree_pruned_of.
Qed.

(** A root without quantity whose only child has none either: the child
    goes, the root stays. *)
Example prune_tree_keeps_root :
  prune_tree (mk "0" "R" 0 0%float 0%float [mk "01" "A" 3 0%float 0%float []])
  = mk "0" "R" 0 0%float 0%float [].
Proof. vm_compute. reflexivity. Qed.

Example prune_tree_sample :
  prune_tree sample_tree
  = mk "0" "OBRA" 0 1%float 0%float
       [mk "01" "CAP1" 1 1%float 0%float [sample_sub1]; sample_cap2].
Proof. vm_compute. reflexivity. Qed.

(** C8: pruning twice gives the tree that pruning once gives. *)
Theorem prune_tree_idempotent root :
  prune_tree (prune_tree root) = prune_tree root.
Proof.
  rewrite (prune_tree_spec (prune_tree root)), hijos_prune_tree.
  rewrite prune_tree_spec, set_hijos_set_hijos.
  destruct (survivors_idemp (hijos root)) as [-> _]; [|done].
  apply Forall_forall. intros h _. apply prune_node_idemp.
Qed.

(** ** Renumberer: the position codes *)

(** C5: after [renumber_tree], the position code of the root is "0";
    the child at position [i] (from 0) of the root has the code
    [fmt_02d (i + 1)], and the child at position [i] of any deeper node
    has the code of that node, a dot, and [fmt_02d (i + 1)]; below one
    hundred, [fmt_02d] is the two decimal digits of the index. *)
Theorem renumber_tree_codes root :
  codigo_decimal (renumber_tree root) = "0"
  ∧ (∀ p m i c,
       node_at p (renumber_tree root) = Some m → hijos m !! i = Some c →
       (p = [] → codigo_decimal c = fmt_02d (S i))
       ∧ (p ≠ [] →
          codigo_decimal c = codigo_decimal m +:+ "." +:+ fmt_02d (S i)))
  ∧ (∀ idx, idx < 100 →
       fmt_02d idx = String (digit (idx / 10)) (String (digit (idx mod 10)) "")).
Proof.
  unfold renumber_tree, _renumber_children.
  change (codigo_decimal (set_codigo_decimal root "0")) with "0".
  split_and!; [apply codigo_decimal_renumber_as| |apply fmt_02d_two_digits].
  intros p m i c Hm Hc.
  apply node_at_renumber_as in Hm as (cdm & m0 & _ & ->).
  rewrite hijos_renumber_as, renumber_hijos_lookup in Hc.
  destruct (hijos m0 !! i) as [c0|]; [|done]. simpl in Hc. injection Hc as <-.
  rewrite !codigo_decimal_renumber_as. unfold child_cd. split.
  - by intros ->.
  - intros Hp. destruct p; [done|]. done.
Qed.

Example renumber_tree_sample :
  renumber_tree
    (mk "0" "OBRA" 0 1%float 0%float
        [mk "01" "CAP1" 1 1%float 0%float [sample_sub1]; sample_cap2])
  = sample_final.
Proof. vm_compute. reflexivity. Qed.

(** The index of the twelfth child, and of the hundredth. *)
Example fmt_02d_values :
  fmt_02d 1 = "01" ∧ fmt_02d 12 = "12" ∧ fmt_02d 100 = "100".
Proof. by vm_compute. Qed.

(** ** Measurement decoder: the key of a record *)

Lemma from_end_1 {A} (l : list A) x :
  from_end l 1 = Some x ↔ ∃ l', l = l' ++ [x].
Proof.
  unfold from_end. simpl. rewrite <- head_lookup, head_reverse. apply last_Some.
Qed.

Lemma from_end_2 {A} (l : list A) x y :
  from_end l 1 = Some y → from_end l 2 = Some x → ∃ l', l = l' ++ [x; y].
Proof.
  unfold from_end. simpl. intros Hy Hx.
  destruct (reverse l) as [|y' [|x' r]] eqn:Hr; simplify_eq/=.
  exists (reverse r). apply (inj reverse).
  by rewrite Hr, reverse_app, reverse_involutive.
Qed.

Lemma last_nonempty_segment_last parts seg :
  nonempty seg = true →
  last (filter (λ part, nonempty part = true) (parts ++ [seg])) = Some seg.
Proof.
  intros Hseg. rewrite filter_app, filter_cons_True, filter_nil by done.
  apply last_snoc.
Qed.

Lemma last_nonempty_segment_skip parts :
  last (filter (λ part, nonempty part = true) (parts ++ [""]))
  = last (filter (λ part, nonempty part = true) parts).
Proof.
  rewrite filter_app, filter_cons_False, filter_nil by done.
  by rewrite app_nil_r.
Qed.

(** C7, as amended: a measurement record that is accepted adds its total
    under the key [measurement_code header]; that key is the whole header
    when the header has no backslash, the last segment of the header when
    that segment is not empty, and otherwise the segment before the last
    one, whether empty or not.  It is the last non-empty segment of the
    header whenever one of the last two segments is not empty. *)
Theorem parse_measurements_key float_of_string records rec header total :
  String.prefix "~M|" rec = true →
  3 ≤ length (split "|"%char rec) →
  split "|"%char rec !! 1 = Some header →
  float_of_string (default "" (from_end (split "|"%char rec) 1)) = Some total →
  parse_measurements float_of_string (records ++ [rec])
    = <[measurement_code header :=
          PrimFloat.add
            (default 0%float
               (parse_measurements float_of_string records
                  !! measurement_code header))
            total]>
        (parse_measurements float_of_string records)
  ∧ (contains "\"%char header = false → measurement_code header = header)
  ∧ (∀ seg,
       from_end (split "\"%char header) 1 = Some seg → seg ≠ "" →
       measurement_code header = seg
       ∧ last_nonempty_segment header = Some seg)
  ∧ (∀ seg,
       from_end (split "\"%char header) 1 = Some "" →
       from_end (split "\"%char header) 2 = Some seg →
       measurement_code header = seg
       ∧ (seg ≠ "" → last_nonempty_segment header = Some seg)).
Proof.
  intros Hprefix Hlen Hheader Htotal. split_and!.
  - rewrite parse_measurements_snoc. unfold measurement_step at 1.
    apply Nat.ltb_ge in Hlen.
    rewrite Hprefix. cbv zeta. cbn [negb]. rewrite Hlen, Hheader.
    cbn [from_option id]. by rewrite Htotal.
  - apply measurement_code_no_sep.
  - intros seg Hlast Hseg. split; [by apply measurement_code_last|].
    apply from_end_1 in Hlast as [parts Hparts].
    unfold last_nonempty_segment. rewrite Hparts.
    by apply last_nonempty_segment_last, nonempty_true.
  - intros seg Hlast Hprev.
    split; [by apply measurement_code_second_last|]. intros Hseg.
    destruct (from_end_2 _ _ _ Hlast Hprev) as [parts Hparts].
    unfold last_nonempty_segment. rewrite Hparts.
    change (parts ++ [seg; ""]) with (parts ++ [seg] ++ [""]).
    rewrite app_assoc, last_nonempty_segment_skip.
    by apply last_nonempty_segment_last, nonempty_true.
Qed.

(** The record [~M|PADRE\HIJO|5] adds 5 under HIJO. *)
Lemma parse_measurements_key_witness :
  parse_measurements float_of_digits ([] ++ ["~M|PADRE\HIJO|5"])
  = <[measurement_code "PADRE\HIJO" :=
        PrimFloat.add
          (default 0%float
             (parse_measurements float_of_digits [] !! measurement_code "PADRE\HIJO"))
          5%float]>
      (parse_measurements float_of_digits [])
  ∧ measurement_code "PADRE\HIJO" = "HIJO".
Proof.
  destruct (parse_measurements_key float_of_digits [] "~M|PADRE\HIJO|5"
              "PADRE\HIJO" 5%float) as (Hstep & _ & Hlast & _).
  - reflexivity.
  - simpl. lia.
  - reflexivity.
  - vm_compute. reflexivity.
  - split; [exact Hstep|]. apply (Hlast "HIJO"); [reflexivity|discriminate].
Defined.

Example parse_measurements_sample :
  parse_measurements float_of_digits
    ["~C|IT1|m2|Solado|||10"; "~M|CAP1\IT1|1\2\|3"; "~M|IT1||2"; "~M|IT1|x"; "~M|IT1"]
  = {["IT1" := 5%float]}.
Proof. vm_compute. reflexivity. Qed.

(** C7, as stated, fails on a header that ends in two backslashes: the
    last non-empty segment of [A\\] is A, and the total is added under
    the empty key. *)
Lemma parse_measurements_key_counterexample :
  split "\"%char "A\\" = ["A"; ""; ""]
  ∧ contains "\"%char "A\\" = true
  ∧ last_nonempty_segment "A\\" = Some "A"
  ∧ measurement_code "A\\" = ""
  ∧ parse_measurements float_of_digits ["~M|A\\|5"] = {["" := 5%float]}.
Proof. split_and!; vm_compute; reflexivity. Qed.


(** * Further properties of the tree pipeline *)

(** ** The data of the built nodes *)

Section builder_more.
Context (decomp : gmap string (list (string * float))).
Context (concepts : gmap string concept).
Context (texts : gmap string string).
Context (quantities : gmap string float).

Local Abbreviation build := (build_node decomp concepts texts quantities).

(** The fields a call fills in from the tables, and the constant ones. *)
Lemma build_node_Some_fields fuel code depth cd visited t visited' :
  build fuel code depth cd visited = Some (Some t, visited') →
  unidad t = concepts !! code ≫= concept_unidad
  ∧ resumen t = from_option concept_resumen "" (concepts !! code)
  ∧ descripcion_larga t = texts !! code
  ∧ margen t = None ∧ interno t = true ∧ grupo t = None ∧ proveedor t = None.
Proof.
  destruct fuel as [|fuel]; simpl; [done|].
  destruct (decide (code ∈ visited)); [done|].
  destruct (build_children _ _ _ _ _ _ _) as [[hs v1]|] eqn:Hloop; [|done].
  by intros [= <- <-].
Qed.

(** The nodes the loop appends carry, in order, codes of the entry. *)
Lemma build_children_codes rec depth cd l :
  (∀ child d ccd v n v',
      rec child d ccd v = Some (Some n, v') → codigo n = child) →
  ∀ idx v acc hs v',
    build_children rec depth cd l idx v acc = Some (hs, v') →
    ∃ new, hs = acc ++ new ∧ codigo <$> new `sublist_of` l.*1.
Proof.
  intros Hrec. induction l as [|[child factor] l IH]; intros idx v acc hs v' H;
    simpl in H.
  - simplify_eq. exists []. by rewrite app_nil_r.
  - destruct (rec child (S depth) (child_cd depth cd idx) v) as [[r v1]|] eqn:Hcall;
      [|done].
    apply IH in H as (new & -> & Hsub). destruct r as [n|].
    + exists (n :: new). rewrite <- app_assoc. split; [done|].
      rewrite fmap_cons. simpl. rewrite (Hrec _ _ _ _ _ _ Hcall).
      by apply sublist_skip.
    + exists new. split; [done|]. by apply sublist_cons.
Qed.

Lemma build_node_hijos_codes fuel code depth cd visited t visited' :
  build fuel code depth cd visited = Some (Some t, visited') →
  codigo <$> hijos t `sublist_of` (default [] (decomp !! code)).*1.
Proof.
  intros (_ & _ & _ & _ & _ & _ & _ & fuel' & -> & Hloop)%build_node_Some.
  eapply build_children_codes in Hloop as (new & Hhs & Hsub).
  - simpl in Hhs. by subst new.
  - intros child d ccd v n v' Hcall. by apply build_node_Some in Hcall as (_ & ? & _).
Qed.
End builder_more.

(** X1: every node of a built tree carries the data of its own code: its
    price, unit, summary and long text are the lookups of its code in the
    tables, with price 0.0 and an empty summary when the code has no
    concept record; its amount is its quantity times its price; and the
    four reserved fields have their fixed values. *)
Theorem build_node_data decomp concepts texts quantities
    fuel code depth cd visited t visited' p n :
  build_node decomp concepts texts quantities fuel code depth cd visited
    = Some (Some t, visited') →
  node_at p t = Some n →
  precio n = from_option concept_precio 0%float (concepts !! codigo n)
  ∧ importe n = PrimFloat.mul (cantidad n) (precio n)
  ∧ unidad n = concepts !! codigo n ≫= concept_unidad
  ∧ resumen n = from_option concept_resumen "" (concepts !! codigo n)
  ∧ descripcion_larga n = texts !! codigo n
  ∧ margen n = None ∧ interno n = true ∧ grupo n = None ∧ proveedor n = None.
Proof.
  intros Ht Hn.
  destruct (build_node_at _ _ _ _ _ _ _ _ _ _ _ _ _ Ht Hn)
    as (fuel0 & cd0 & v0 & v1 & Hcall).
  apply build_node_Some in Hcall as Hmain. apply build_node_Some_fields in Hcall.
  destruct Hmain as (_ & _ & _ & _ & ? & ? & _). naive_solver.
Qed.

Lemma build_node_data_witness :
  node_at [0; 1; 0] sample_tree = Some sample_it1
  ∧ precio sample_it1 = 10%float
  ∧ importe sample_it1 = 50%float.
Proof.
  destruct (build_node_data sample_decomp sample_concepts sample_texts
              sample_quantities 4 "OBRA" 0 "0" ∅ sample_tree sample_visited
              [0; 1; 0] sample_it1) as (Hprecio & Himporte & _).
  - vm_compute. reflexivity.
  - reflexivity.
  - split_and!; [reflexivity|exact Hprecio|].
    rewrite Himporte. reflexivity.
Defined.

(** X2: the children of every node of a built tree follow the order of
    the decomposition entry of its code: their codes are a subsequence of
    the child codes the entry lists. *)
Theorem build_node_children_order decomp concepts texts quantities
    fuel code depth cd visited t visited' p n :
  build_node decomp concepts texts quantities fuel code depth cd visited
    = Some (Some t, visited') →
  node_at p t = Some n →
  codigo <$> hijos n `sublist_of` (default [] (decomp !! codigo n)).*1.
Proof.
  intros Ht Hn.
  destruct (build_node_at _ _ _ _ _ _ _ _ _ _ _ _ _ Ht Hn)
    as (fuel0 & cd0 & v0 & v1 & Hcall).
  by eapply build_node_hijos_codes.
Qed.

Lemma build_node_children_order_witness :
  codigo <$> hijos shared_b = []
  ∧ codigo <$> hijos shared_b `sublist_of` (default [] (shared_decomp !! "B")).*1.
Proof.
  split; [reflexivity|].
  refine (build_node_children_order shared_decomp ∅ ∅ ∅ 3 "R" 0 "0" ∅
            shared_tree (list_to_set ["R"; "A"; "X"; "B"]) [1] shared_b _ _).
  - vm_compute. reflexivity.
  - reflexivity.
Defined.

(** ** The codes of a built tree are the codes reachable from its root *)

Lemma tree_codes_node_at t c :
  c ∈ tree_codes t ↔ ∃ p n, node_at p t = Some n ∧ codigo n = c.
Proof.
  split.
  - induction t as [t IH] using node_forall_ind.
    rewrite tree_codes_unfold, elem_of_cons, list_elem_of_bind.
    intros [->|(h & Hc & Hh)]; [by exists [], t|].
    rewrite Forall_forall in IH. destruct (IH h Hh Hc) as (p & n & Hn & <-).
    apply list_elem_of_lookup_1 in Hh as [i Hi].
    exists (i :: p), n. by rewrite node_at_cons, Hi.
  - intros (p & n & Hn & <-). apply node_at_codes in Hn.
    eapply elem_of_sublist; [apply codigo_tree_codes|done].
Qed.

Section builder_reach.
Context (decomp : gmap string (list (string * float))).
Context (concepts : gmap string concept).
Context (texts : gmap string string).
Context (quantities : gmap string float).

Local Abbreviation build := (build_node decomp concepts texts quantities).

(** After the loop, every child code of the entry is in the shared set,
    and so is every child code of the nodes the loop built. *)
Lemma build_children_edges rec depth cd l :
  (∀ child d ccd v r v',
      rec child d ccd v = Some (r, v') →
      call_ok child ccd v r v' ∧ edges_into decomp (result_codes r) v') →
  ∀ idx v acc hs v',
    build_children rec depth cd l idx v acc = Some (hs, v') →
    ∃ new, hs = acc ++ new
           ∧ v ⊆ v'
           ∧ (∀ b factor, (b, factor) ∈ l → b ∈ v')
           ∧ edges_into decomp (new ≫= tree_codes) v'.
Proof.
  intros Hrec. induction l as [|[child factor] l IH]; intros idx v acc hs v' H;
    simpl in H.
  - simplify_eq. exists []. rewrite app_nil_r.
    split_and!; [done|done|by intros ?? ?%elem_of_nil|by intros ?? ?%elem_of_nil].
  - destruct (rec child (S depth) (child_cd depth cd idx) v) as [[r v1]|] eqn:Hcall;
      [|done].
    apply Hrec in Hcall as [[Hskip Hv1 _ _ Hcode] Hedges].
    apply IH in H as (new & -> & Hsub & Hlist & Hnew).
    assert (child ∈ v1) as Hchild.
    { destruct r as [n|]; [|set_solver].
      destruct (Hcode n eq_refl) as [<- _]. subst v1. simpl.
      pose proof (codigo_tree_codes n). set_solver. }
    assert (v ⊆ v1) as Hv by set_solver.
    exists (match r with Some n => n :: new | None => new end).
    split_and!.
    + destruct r; [by rewrite <- app_assoc|done].
    + set_solver.
    + intros b f [[= -> ->]|Hb]%elem_of_cons; [set_solver|by eapply Hlist].
    + destruct r as [n|]; [|done]. rewrite bind_cons.
      intros c b [Hc|Hc]%elem_of_app Hedge; [|by eapply Hnew].
      apply Hsub. by eapply Hedges.
Qed.

Lemma build_node_edges fuel code depth cd visited r visited' :
  build fuel code depth cd visited = Some (r, visited') →
  edges_into decomp (result_codes r) visited'.
Proof.
  revert code depth cd visited r visited'.
  induction fuel as [|fuel IH]; intros code depth cd visited r visited' H;
    [done|].
  destruct r as [t|]; [|by intros ?? ?%elem_of_nil].
  apply build_node_Some in H
    as (_ & Hcode & _ & _ & _ & _ & _ & fuel' & [= <-] & Hloop).
  eapply build_children_edges in Hloop as (new & Hhs & _ & Hlist & Hnew).
  - simpl in Hhs. subst new. simpl. rewrite tree_codes_unfold.
    intros c b [->|Hc]%elem_of_cons Hedge; [|by eapply Hnew].
    destruct Hedge as (chs & factor & Hentry & Hb).
    apply (Hlist b factor). by rewrite <- Hcode, Hentry.
  - intros child d ccd v r v' Hcall. split; [by eapply build_node_ok|by eapply IH].
Qed.

(** The code of every node is reachable from the code of the call. *)
Lemma build_node_reachable p :
  ∀ fuel code depth cd visited t visited' n,
    build fuel code depth cd visited = Some (Some t, visited') →
    node_at p t = Some n →
    reachable decomp code (codigo n).
Proof.
  induction p as [|i p IH]; intros fuel code depth cd visited t visited' n Ht.
  - intros [= <-]. apply build_node_Some in Ht as (_ & -> & _). apply rtc_refl.
  - rewrite node_at_cons. destruct (hijos t !! i) as [c|] eqn:Hc; [|done].
    simpl. intros Hn.
    pose proof (build_node_hijos_codes _ _ _ _ _ _ _ _ _ _ _ Ht) as Hsub.
    apply build_node_Some in Ht as (_ & _ & _ & _ & _ & _ & _ & fuel' & -> & Hloop).
    apply list_elem_of_lookup_2 in Hc as Hin.
    destruct (build_children_elem _ _ _ _ _ _ _ _ _ _ Hloop Hin)
      as [[]%elem_of_nil|(child & ccd & v0 & v1 & Hcall)].
    apply build_node_Some in Hcall as Hchild. destruct Hchild as (_ & Hcode & _).
    eapply rtc_l; [|by eapply IH].
    assert (codigo c ∈ (default [] (decomp !! code)).*1) as Hentry.
    { eapply elem_of_sublist; [|exact Hsub]. by apply list_elem_of_fmap_2. }
    apply list_elem_of_fmap in Hentry as ([b factor] & Hb & Hentry).
    simpl in Hb. subst b. rewrite Hcode in Hentry.
    destruct (decomp !! code) as [chs|] eqn:Hchs; [|by apply elem_of_nil in Hentry].
    by exists chs, factor.
Qed.
End builder_reach.

(** X3: started with an empty visited set, the builder produces a node
    for a code exactly when the code can be reached from the root along
    decomposition entries. *)
Theorem build_node_reaches decomp concepts texts quantities
    fuel code depth cd t visited' :
  build_node decomp concepts texts quantities fuel code depth cd ∅
    = Some (Some t, visited') →
  ∀ c, c ∈ tree_codes t ↔ reachable decomp code c.
Proof.
  intros Ht c. split.
  - intros (p & n & Hn & <-)%tree_codes_node_at. by eapply build_node_reachable.
  - apply build_node_edges in Ht as Hedges.
    apply build_node_ok in Ht as [_ Hv _ _ Hcode].
    destruct (Hcode t eq_refl) as [Hroot _]. simpl in *.
    assert (visited' = list_to_set (tree_codes t)) as -> by set_solver.
    unfold reachable. revert c. apply rtc_ind_r.
    + rewrite <- Hroot. apply codigo_tree_codes.
    + intros a b _ Hab IH.
      apply (Hedges a b IH) in Hab. by apply elem_of_list_to_set in Hab.
Qed.

Lemma build_node_reaches_witness :
  "X" ∈ tree_codes shared_tree ↔ reachable shared_decomp "R" "X".
Proof.
  refine (build_node_reaches shared_decomp ∅ ∅ ∅ 3 "R" 0 "0"
            shared_tree (list_to_set ["R"; "A"; "X"; "B"]) _ "X").
  vm_compute. reflexivity.
Defined.

(** ** What the pruner removes *)

Lemma codigo_prune_node n : codigo (_prune_node n).2 = codigo n.
Proof. by rewrite prune_node_spec. Qed.

Lemma signal_child n i c :
  hijos n !! i = Some c → signal c = true → signal n = true.
Proof.
  intros Hc Hsig. rewrite signal_unfold, orb_true_iff, existsb_exists. right.
  exists c. split; [|done]. by eapply list_elem_of_In, list_elem_of_lookup_2.
Qed.

(** A node with signal is still there after its subtree is pruned, and
    the root of that subtree has signal too. *)
Lemma prune_node_keeps p :
  ∀ h n, node_at p h = Some n → signal n = true →
         signal h = true ∧ codigo n ∈ tree_codes (_prune_node h).2.
Proof.
  induction p as [|i p IH]; intros h n.
  - intros [= <-] Hsig. split; [done|].
    rewrite <- (codigo_prune_node h). apply codigo_tree_codes.
  - rewrite node_at_cons. destruct (hijos h !! i) as [c|] eqn:Hc; [|done].
    simpl. intros Hn Hsig. destruct (IH c n Hn Hsig) as [Hc_sig Hin].
    split; [by eapply signal_child|].
    rewrite tree_codes_unfold, hijos_prune_node. right.
    apply list_elem_of_bind. exists (_prune_node c).2. split; [done|].
    apply elem_of_survivors. exists c. split; [by eapply list_elem_of_lookup_2|].
    rewrite <- Hc_sig, <- prune_node_flag. by destruct (_prune_node c).
Qed.

Lemma prune_tree_keeps root p n :
  node_at p root = Some n → signal n = true →
  codigo n ∈ tree_codes (prune_tree root).
Proof.
  destruct p as [|i p].
  - intros [= <-] _. rewrite tree_codes_unfold, prune_tree_spec. by left.
  - rewrite node_at_cons. destruct (hijos root !! i) as [c|] eqn:Hc; [|done].
    change (Some c ≫= node_at p) with (node_at p c).
    intros Hn Hsig. destruct (prune_node_keeps p c n Hn Hsig) as [Hc_sig Hin].
    rewrite tree_codes_unfold, hijos_prune_tree. right.
    apply list_elem_of_bind. exists (_prune_node c).2. split; [done|].
    apply elem_of_survivors. exists c. split; [by eapply list_elem_of_lookup_2|].
    rewrite <- Hc_sig, <- prune_node_flag. by destruct (_prune_node c).
Qed.

(** X4: in a tree built from depth 0, the pruner removes only nodes at
    depth 2 or more whose code has no decomposition entry and whose
    measurement total is zero or missing: every chapter stays, with or
    without line items, and so does every node with a decomposition
    entry. *)
Theorem prune_tree_removes_only_unmeasured
    decomp concepts texts quantities fuel code cd visited t visited' p n :
  build_node decomp concepts texts quantities fuel code 0 cd visited
    = Some (Some t, visited') →
  node_at p t = Some n →
  codigo n ∉ tree_codes (prune_tree t) →
  2 ≤ length p
  ∧ default [] (decomp !! codigo n) = []
  ∧ PrimFloat.eqb (default 0%float (quantities !! codigo n)) 0%float = true.
Proof.
  intros Ht Hn Hgone.
  destruct (signal n) eqn:Hsig; [by destruct Hgone; eapply prune_tree_keeps|].
  rewrite signal_unfold in Hsig. apply orb_false_iff in Hsig as [Hq _].
  destruct (build_node_at _ _ _ _ _ _ _ _ _ _ _ _ _ Ht Hn)
    as (fuel0 & cd0 & v0 & v1 & Hcall).
  apply build_node_Some in Hcall as (_ & _ & _ & Hcant & _).
  unfold tiene_cantidad in Hq. rewrite Hcant in Hq. unfold build_cantidad in Hq.
  simpl in Hq. destruct (length p) as [|[|d]]; [done|done|]. simpl in Hq.
  destruct (default [] (decomp !! codigo n)) as [|entry rest] eqn:Hentry; [|done].
  split_and!; [lia|done|].
  apply negb_false_iff in Hq. by destruct (quantities !! codigo n).
Qed.

(** In the sample, IT0 has no measurement and is the node that goes. *)
Lemma prune_tree_removes_only_unmeasured_witness :
  node_at [0; 0] sample_tree = Some sample_it0
  ∧ ("IT0" ∉ tree_codes (prune_tree sample_tree))
  ∧ default [] (sample_decomp !! "IT0") = []
  ∧ sample_quantities !! "IT0" = None.
Proof.
  assert ("IT0" ∉ tree_codes (prune_tree sample_tree)) as Hgone.
  { vm_compute. intros H. repeat (apply elem_of_cons in H as [[=]|H]).
    by apply elem_of_nil in H. }
  destruct (prune_tree_removes_only_unmeasured sample_decomp sample_concepts
              sample_texts sample_quantities 4 "OBRA" "0" ∅ sample_tree
              sample_visited [0; 0] sample_it0) as (_ & Hentry & _).
  - vm_compute. reflexivity.
  - reflexivity.
  - exact Hgone.
  - split_and!; [reflexivity|exact Hgone|exact Hentry|vm_compute; reflexivity].
Defined.

(** The empty chapter of the sample is kept. *)
Example prune_tree_keeps_empty_chapter :
  codigo <$> hijos (prune_tree sample_tree) = ["CAP1"; "CAP2"].
Proof. vm_compute. reflexivity. Qed.

(** ** Trees the pruner leaves alone *)

(** A subtree in which every node has signal is returned as it is. *)
Lemma prune_node_id n :
  (∀ p m, node_at p n = Some m → signal m = true) →
  _prune_node n = (true, n).
Proof.
  induction n as [n IH] using node_forall_ind. intros Hall.
  assert (omap (survivor _prune_node) (hijos n) = hijos n) as Hkept.
  { assert (∀ i c, hijos n !! i = Some c → _prune_node c = (true, c)) as Hc.
    { intros i c Hi. rewrite Forall_forall in IH.
      apply IH; [by eapply list_elem_of_lookup_2|].
      intros p m Hm. apply (Hall (i :: p)). by rewrite node_at_cons, Hi. }
    clear IH Hall. induction (hijos n) as [|h l IHl]; [done|].
    rewrite survivors_cons, (Hc 0 h eq_refl). simpl. f_equal.
    apply IHl. intros i c Hi. by apply (Hc (S i)). }
  pose proof (Hall [] n eq_refl) as Hflag.
  rewrite (surjective_pairing (_prune_node n)), prune_node_flag, Hflag.
  f_equal. rewrite prune_node_spec. simpl. by rewrite Hkept, set_hijos_id.
Qed.

Lemma prune_tree_id root :
  (∀ p n, p ≠ [] → node_at p root = Some n → signal n = true) →
  prune_tree root = root.
Proof.
  intros Hall. rewrite prune_tree_spec.
  assert (omap (survivor _prune_node) (hijos root) = hijos root) as ->.
  { assert (∀ i c, hijos root !! i = Some c → _prune_node c = (true, c)) as Hc.
    { intros i c Hi. apply prune_node_id. intros p m Hm.
      apply (Hall (i :: p)); [done|]. by rewrite node_at_cons, Hi. }
    clear Hall. induction (hijos root) as [|h l IHl]; [done|].
    rewrite survivors_cons, (Hc 0 h eq_refl). simpl. f_equal.
    apply IHl. intros i c Hi. by apply (Hc (S i)). }
  apply set_hijos_id.
Qed.

(** Everything below the root of a pruned tree has signal. *)
Lemma prune_tree_remaining root p n :
  p ≠ [] → node_at p (prune_tree root) = Some n → signal n = true.
Proof.
  destruct p as [|i p]; [done|]. intros _.
  rewrite node_at_cons, hijos_prune_tree.
  destruct (omap _ _ !! i) as [c|] eqn:Hc; [|done].
  change (Some c ≫= node_at p) with (node_at p c). intros Hn.
  apply survivor_lookup in Hc as (h & _ & Hsig & ->).
  by eapply prune_node_remaining.
Qed.

(** X5: [prune_tree] returns a tree unchanged exactly when every node
    below its root has a quantity that is not zero in itself or in one of
    its descendants. *)
Theorem prune_tree_fixpoint root :
  prune_tree root = root ↔
  ∀ p n, p ≠ [] → node_at p root = Some n → signal n = true.
Proof.
  split.
  - intros Hfix p n Hp Hn. rewrite <- Hfix in Hn. by eapply prune_tree_remaining.
  - apply prune_tree_id.
Qed.

(** ** The renumberer changes position codes only *)

Lemma forget_cd_unfold n :
  forget_cd n =
  Node "" (codigo n) (naturaleza n) (unidad n) (resumen n)
       (descripcion_larga n) (cantidad n) (precio n) (margen n) (importe n)
       (interno n) (grupo n) (proveedor n) (forget_cd <$> hijos n).
Proof. by destruct n. Qed.

Lemma forget_cd_renumber_hijos depth cd (l : list node) idx :
  Forall (λ h, ∀ cd d, forget_cd (renumber_as cd d h) = forget_cd h) l →
  forget_cd <$> renumber_hijos renumber_as depth cd l idx = forget_cd <$> l.
Proof.
  intros Hall. revert idx.
  induction Hall as [|h l Hh _ IHl]; intros idx; simpl; [done|].
  by rewrite Hh, IHl.
Qed.

Lemma forget_cd_renumber_as n :
  ∀ cd depth, forget_cd (renumber_as cd depth n) = forget_cd n.
Proof.
  induction n as [n IH] using node_forall_ind. intros cd depth.
  rewrite (forget_cd_unfold n), forget_cd_unfold, renumber_as_unfold. simpl.
  by rewrite forget_cd_renumber_hijos.
Qed.

(** X6: [renumber_tree] changes nothing but position codes: with the
    position codes blanked, the tree before and the tree after are the
    same. *)
Theorem renumber_tree_only_codes root :
  forget_cd (renumber_tree root) = forget_cd root.
Proof.
  unfold renumber_tree, _renumber_children.
  rewrite forget_cd_renumber_as, (forget_cd_unfold root), forget_cd_unfold.
  by destruct root.
Qed.

(** ** The final tree is stable *)

Lemma renumber_as_set_codigo_decimal cd depth n c :
  renumber_as cd depth (set_codigo_decimal n c) = renumber_as cd depth n.
Proof. by rewrite !renumber_as_unfold. Qed.

Lemma renumber_hijos_twice depth cd depth' cd' (l : list node) idx idx' :
  Forall (λ h, ∀ cd d cd' d',
            renumber_as cd d (renumber_as cd' d' h) = renumber_as cd d h) l →
  renumber_hijos renumber_as depth cd
    (renumber_hijos renumber_as depth' cd' l idx') idx
  = renumber_hijos renumber_as depth cd l idx.
Proof.
  intros Hall. revert idx idx'.
  induction Hall as [|h l Hh _ IHl]; intros idx idx'; simpl; [done|].
  by rewrite Hh, IHl.
Qed.

(** Renumbering forgets every earlier numbering. *)
Lemma renumber_as_twice n :
  ∀ cd depth cd' depth',
    renumber_as cd depth (renumber_as cd' depth' n) = renumber_as cd depth n.
Proof.
  induction n as [n IH] using node_forall_ind. intros cd depth cd' depth'.
  rewrite (renumber_as_unfold cd depth (renumber_as _ _ _)).
  rewrite hijos_renumber_as, renumber_hijos_twice by done.
  by rewrite (renumber_as_unfold cd' depth' n), (renumber_as_unfold cd depth n).
Qed.

Lemma renumber_tree_unfold root :
  renumber_tree root = renumber_as "0" 0 root.
Proof.
  unfold renumber_tree, _renumber_children.
  by rewrite renumber_as_set_codigo_decimal.
Qed.

Lemma signal_renumber_as n :
  ∀ cd depth, signal (renumber_as cd depth n) = signal n.
Proof.
  induction n as [n IH] using node_forall_ind. intros cd depth.
  rewrite (signal_unfold n), signal_unfold, hijos_renumber_as.
  f_equal; [by rewrite renumber_as_unfold|].
  generalize 1. induction IH as [|h l Hh _ IHl]; intros idx; simpl; [done|].
  by rewrite Hh, IHl.
Qed.

(** X7: the tree [bc3_to_json] returns is stable: pruning it again
    removes nothing and renumbering it again changes no position code. *)
Theorem final_tree_stable t :
  prune_tree (renumber_tree (prune_tree t)) = renumber_tree (prune_tree t)
  ∧ renumber_tree (renumber_tree (prune_tree t)) = renumber_tree (prune_tree t).
Proof.
  split.
  - apply prune_tree_id. intros p n Hp. rewrite renumber_tree_unfold.
    intros (cdm & m0 & Hm0 & ->)%node_at_renumber_as.
    rewrite signal_renumber_as. by eapply prune_tree_remaining.
  - by rewrite !renumber_tree_unfold, renumber_as_twice.
Qed.

Example final_tree_stable_sample :
  prune_tree sample_final = sample_final ∧ renumber_tree sample_final = sample_final.
Proof. split; vm_compute; reflexivity. Qed.

(** ** Position codes are pairwise distinct *)

Lemma string_app_nil_l s : "" +:+ s = s.
Proof. done. Qed.

Lemma string_app_cons c a b : String c a +:+ b = String c (a +:+ b).
Proof. done. Qed.

Lemma string_app_assoc a b c : (a +:+ b) +:+ c = a +:+ (b +:+ c).
Proof.
  induction a as [|x a IH]; [done|]. by rewrite !string_app_cons, IH.
Qed.

Lemma contains_app sep a b :
  contains sep (a +:+ b) = contains sep a || contains sep b.
Proof.
  induction a as [|x a IH]; [done|].
  rewrite string_app_cons. simpl. by rewrite IH, orb_assoc.
Qed.

(** Splitting at the first separator. *)
Lemma split_app_sep sep a b :
  contains sep a = false →
  split sep (a +:+ String sep b) = a :: split sep b.
Proof.
  induction a as [|x a IH]; intros Ha.
  - rewrite string_app_nil_l. simpl. by rewrite Ascii.eqb_refl.
  - simpl in Ha. apply orb_false_iff in Ha as [Hx Ha].
    rewrite string_app_cons. simpl. by rewrite Hx, IH.
Qed.

Lemma join_cons_cons sep a b l :
  join sep (a :: b :: l) = a +:+ sep +:+ join sep (b :: l).
Proof. done. Qed.

(** [split] undoes [join] when no part holds the separator. *)
Lemma split_join sep (l : list string) :
  l ≠ [] → Forall (λ part, contains sep part = false) l →
  split sep (join (String sep "") l) = l.
Proof.
  intros Hl Hall. induction Hall as [|a l Ha Hall IH]; [done|].
  destruct l as [|b l]; [by apply split_no_sep|].
  rewrite join_cons_cons, string_app_cons, string_app_nil_l.
  rewrite split_app_sep by done. f_equal. by apply IH.
Qed.

Lemma to_uint_nonnil n : Nat.to_uint n ≠ Decimal.Nil.
Proof.
  intros Hnil. pose proof (Unsigned.of_to n) as Hn. rewrite Hnil in Hn.
  simpl in Hn. by subst n.
Qed.

Lemma uint_of_string_zeros k s d :
  NilEmpty.uint_of_string s = Some d →
  ∃ d', NilEmpty.uint_of_string (zeros k +:+ s) = Some d'
        ∧ Nat.of_uint d' = Nat.of_uint d.
Proof.
  intros Hs. induction k as [|k (d' & Hd' & Heq)]; [by exists d|].
  exists (Decimal.D0 d'). split; [|by rewrite <- Heq].
  change (zeros (S k)) with ("0" +:+ zeros k).
  rewrite string_app_assoc, string_app_cons, string_app_nil_l. simpl.
  by rewrite Hd'.
Qed.

(** The index can be read back from its two-digit form. *)
Lemma nat_of_digits_fmt_02d n : nat_of_digits (fmt_02d n) = Some n.
Proof.
  unfold nat_of_digits, fmt_02d, str_of_nat.
  assert (NilEmpty.uint_of_string (NilZero.string_of_uint (Nat.to_uint n))
          = Some (Nat.to_uint n)) as Hs.
  { pose proof (to_uint_nonnil n).
    destruct (Nat.to_uint n) eqn:Hu; [done|apply NilEmpty.usu..]. }
  destruct (uint_of_string_zeros
              (2 - String.length (NilZero.string_of_uint (Nat.to_uint n))) _ _ Hs)
    as (d' & -> & Heq).
  simpl. by rewrite Heq, Unsigned.of_to.
Qed.

Lemma fmt_02d_inj a b : fmt_02d a = fmt_02d b → a = b.
Proof.
  intros Heq. apply (f_equal nat_of_digits) in Heq.
  rewrite !nat_of_digits_fmt_02d in Heq. by injection Heq.
Qed.

Lemma digits_no_dot s :
  is_Some (NilEmpty.uint_of_string s) → contains "." s = false.
Proof.
  induction s as [|c s IH]; [done|]. simpl. intros [d Hd].
  destruct (Ascii.eqb c ".") eqn:Hc.
  - apply Ascii.eqb_eq in Hc as ->. by destruct (NilEmpty.uint_of_string s).
  - simpl. apply IH. destruct (NilEmpty.uint_of_string s); [done|].
    by destruct c as [[] [] [] [] [] [] [] []].
Qed.

Lemma fmt_02d_no_dot n : contains "." (fmt_02d n) = false.
Proof.
  apply digits_no_dot. pose proof (nat_of_digits_fmt_02d n) as Hn.
  unfold nat_of_digits in Hn. by destruct (NilEmpty.uint_of_string (fmt_02d n)).
Qed.

Lemma node_at_renumber_as_code p :
  ∀ cd depth n m,
    node_at p (renumber_as cd depth n) = Some m →
    codigo_decimal m = code_from cd depth p.
Proof.
  induction p as [|i p IH]; intros cd depth n m.
  - intros [= <-]. apply codigo_decimal_renumber_as.
  - rewrite node_at_cons, hijos_renumber_as, renumber_hijos_lookup.
    destruct (hijos n !! i) as [h|]; [|done]. simpl. apply IH.
Qed.

Lemma join_cons_merge a b (l : list string) :
  join "." ((a +:+ "." +:+ b) :: l) = a +:+ "." +:+ join "." (b :: l).
Proof.
  destruct l as [|c l]; [done|].
  by rewrite !join_cons_cons, !string_app_assoc.
Qed.

(** Below the root, the code is the code of the first level followed by
    the dotted indices of the rest of the path. *)
Lemma code_from_join p :
  ∀ cd depth,
    depth ≠ 0 →
    code_from cd depth p = join "." (cd :: ((λ i, fmt_02d (S i)) <$> p)).
Proof.
  induction p as [|i p IH]; intros cd depth Hd; [done|].
  simpl code_from. rewrite IH by done. unfold child_cd.
  destruct depth as [|depth]; [done|]. simpl Nat.eqb. cbv iota.
  by rewrite fmap_cons, join_cons_merge.
Qed.

Lemma code_from_root p : code_from "0" 0 p = position_code p.
Proof.
  destruct p as [|i p]; [done|]. simpl code_from.
  rewrite code_from_join by done. done.
Qed.

Lemma position_code_parts p :
  p ≠ [] →
  split "." (position_code p) = (λ i, fmt_02d (S i)) <$> p.
Proof.
  intros Hp. destruct p as [|i p]; [done|]. unfold position_code.
  apply split_join; [done|].
  apply Forall_fmap, Forall_forall. intros j _. apply fmt_02d_no_dot.
Qed.

Lemma position_code_inj p q : position_code p = position_code q → p = q.
Proof.
  assert (∀ i p, position_code [] ≠ position_code (i :: p)) as Hroot.
  { intros i r Heq. apply (f_equal (split ".")) in Heq.
    rewrite (position_code_parts (i :: r)) in Heq by done.
    destruct r; [|done]. injection Heq as Heq.
    apply (f_equal nat_of_digits) in Heq.
    by rewrite nat_of_digits_fmt_02d in Heq. }
  destruct p as [|i p], q as [|j q]; intros Heq;
    [done|by apply Hroot in Heq|by symmetry in Heq; apply Hroot in Heq|].
  apply (f_equal (split ".")) in Heq.
  rewrite !position_code_parts in Heq by done.
  revert Heq. generalize (i :: p) (j :: q). clear.
  intros l. induction l as [|a l IH]; intros [|b k]; [done..|].
  rewrite !fmap_cons. intros [= Hab%fmt_02d_inj Hl]. injection Hab as ->.
  f_equal. by apply IH.
Qed.

(** X8: after [renumber_tree], the position code of a node is determined
    by its place in the tree, "0" for the root and otherwise the two-digit
    indices of the path from the root joined by dots, and no two nodes
    have the same position code. *)
Theorem renumber_tree_codes_distinct root :
  (∀ p m, node_at p (renumber_tree root) = Some m →
          codigo_decimal m = position_code p)
  ∧ (∀ p q a b,
       node_at p (renumber_tree root) = Some a →
       node_at q (renumber_tree root) = Some b →
       codigo_decimal a = codigo_decimal b →
       p = q).
Proof.
  assert (∀ p m, node_at p (renumber_tree root) = Some m →
                 codigo_decimal m = position_code p) as Hcode.
  { intros p m. rewrite renumber_tree_unfold, <- code_from_root.
    apply node_at_renumber_as_code. }
  split; [done|]. intros p q a b Ha%Hcode Hb%Hcode Heq.
  apply position_code_inj. congruence.
Qed.

Example position_code_values :
  position_code [] = "0" ∧ position_code [0] = "01"
  ∧ position_code [0; 1; 11] = "01.02.12".
Proof. by vm_compute. Qed.

(** ** The root the resolver returns *)

(** X9: whichever code [detect_root_code] returns, also when several
    roots exist, it is a key of the decomposition map and no entry of the
    map lists it as a child. *)
Theorem detect_root_code_is_root (decomp : gmap string (list (string * float))) r :
  detect_root_code decomp = inr r →
  is_Some (decomp !! r)
  ∧ ∀ parent chs factor, decomp !! parent = Some chs → (r, factor) ∉ chs.
Proof.
  unfold detect_root_code.
  destruct (elements (roots decomp)) as [|x l] eqn:Hel; [done|].
  intros [= <-].
  assert (x ∈ roots decomp) as [Hkey Hchild]%elem_of_roots.
  { apply elem_of_elements. rewrite Hel. by left. }
  split; [done|]. intros parent chs factor Hp Hin. apply Hchild.
  by exists parent, chs, factor.
Qed.

Lemma detect_root_code_is_root_witness :
  is_Some (sample_decomp !! "OBRA")
  ∧ ∀ parent chs factor,
      sample_decomp !! parent = Some chs → ("OBRA", factor) ∉ chs.
Proof.
  refine (detect_root_code_is_root sample_decomp "OBRA" _).
  vm_compute. reflexivity.
Defined.

(** * The decoders *)

(** ** Strings *)

Lemma prefix_app p s : String.prefix p s = true ↔ ∃ rest, s = p +:+ rest.
Proof.
  revert s. induction p as [|a p IH]; intros s.
  - split; [by exists s|by destruct s].
  - destruct s as [|b s].
    + split; [done|]. by intros [rest Hrest].
    + simpl. destruct (Ascii.ascii_dec a b) as [->|Hne].
      * rewrite IH. split; intros [rest Hrest]; exists rest.
        -- by rewrite string_app_cons, <- Hrest.
        -- rewrite string_app_cons in Hrest. by injection Hrest.
      * split; [done|]. intros [rest Hrest].
        rewrite string_app_cons in Hrest. by injection Hrest.
Qed.

Lemma split_cons_sep sep s : split sep (String sep s) = "" :: split sep s.
Proof. simpl. by rewrite Ascii.eqb_refl. Qed.

(** [join] undoes [split]. *)
Lemma join_split sep s : join (String sep "") (split sep s) = s.
Proof.
  induction s as [|c s IH]; [done|]. simpl.
  destruct (Ascii.eqb c sep) eqn:Hc.
  - apply Ascii.eqb_eq in Hc as ->.
    pose proof (split_nonnil sep s) as Hne.
    destruct (split sep s) as [|part parts] eqn:Hs; [done|].
    by rewrite join_cons_cons, string_app_nil_l, string_app_cons,
      string_app_nil_l, IH.
  - destruct (split sep s) as [|part parts] eqn:Hs; [by destruct (split_nonnil sep s)|].
    destruct parts as [|part' parts].
    + simpl in *. by rewrite IH.
    + rewrite join_cons_cons in *. by rewrite string_app_cons, IH.
Qed.

(** The parts [split] returns do not hold the separator. *)
Lemma split_no_sep_parts sep s :
  Forall (λ part, contains sep part = false) (split sep s).
Proof.
  induction s as [|c s IH]; [by repeat constructor|]. simpl.
  destruct (Ascii.eqb c sep) eqn:Hc; [by constructor|].
  destruct (split sep s) as [|part parts]; [by repeat constructor; simpl; rewrite Hc|].
  inversion_clear IH. constructor; [|done]. simpl. by rewrite Hc.
Qed.

(** A record that starts with its tag and a bar has at least two fields,
    the first of which is the tag. *)
Lemma split_tag tag rec :
  contains "|"%char tag = false →
  String.prefix (tag +:+ "|") rec = true →
  ∃ rest, rec = tag +:+ "|" +:+ rest
          ∧ split "|"%char rec = tag :: split "|"%char rest.
Proof.
  intros Htag [rest ->]%prefix_app. exists rest.
  rewrite string_app_assoc. split; [done|].
  by rewrite string_app_cons, string_app_nil_l, split_app_sep.
Qed.

(** Invariants of a table built by a loop over the records. *)
Lemma foldl_invariant {A B} (P : A → Prop) (step : A → B → A) (l : list B) a :
  P a → (∀ a b, P a → P (step a b)) → P (foldl step a l).
Proof.
  intros Ha Hstep. revert a Ha. induction l as [|b l IH]; intros a Ha; [done|].
  simpl. apply IH. by apply Hstep.
Qed.

(** A loop that ignores the records without its tag sees the same table
    when those records are removed. *)
Lemma foldl_filter_tag {A} (step : A → string → A) tag (l : list string) a :
  (∀ a rec, String.prefix tag rec = false → step a rec = a) →
  foldl step a (filter (λ rec, String.prefix tag rec = true) l) = foldl step a l.
Proof.
  intros Hstep. revert a. induction l as [|rec l IH]; intros a; [done|].
  destruct (String.prefix tag rec) eqn:Htag.
  - rewrite filter_cons_True by done. simpl. apply IH.
  - rewrite filter_cons_False by congruence. simpl. by rewrite Hstep, IH.
Qed.

(** ** Long texts *)

Lemma parse_texts_snoc records rec :
  parse_texts (records ++ [rec]) = text_step (parse_texts records) rec.
Proof. unfold parse_texts. by rewrite foldl_snoc. Qed.

(** X10: a record [~T|code|body] stores under [code] the whole body,
    bars included, with the white space around it removed, and replaces
    what an earlier record stored there; a [~T] record with no bar after
    the code stores nothing. *)
Theorem parse_texts_record records code body :
  contains "|"%char code = false →
  parse_texts (records ++ ["~T|" +:+ code +:+ "|" +:+ body])
    = <[code := strip body]> (parse_texts records)
  ∧ parse_texts (records ++ ["~T|" +:+ code]) = parse_texts records.
Proof.
  intros Hcode. rewrite !parse_texts_snoc. unfold text_step. split.
  - assert (String.prefix "~T|" ("~T|" +:+ code +:+ "|" +:+ body) = true) as ->
      by (apply prefix_app; by eexists).
    change ("~T|" +:+ code +:+ "|" +:+ body)
      with ("~T" +:+ String "|" (code +:+ String "|" body)).
    rewrite !split_app_sep by done.
    pose proof (split_nonnil "|"%char body) as Hne.
    pose proof (join_split "|"%char body) as Hjoin.
    destruct (split "|"%char body) as [|part parts]; [done|].
    simpl in *. by rewrite Hjoin.
  - assert (String.prefix "~T|" ("~T|" +:+ code) = true) as ->
      by (apply prefix_app; by eexists).
    change ("~T|" +:+ code) with ("~T" +:+ String "|" code).
    by rewrite split_app_sep, split_no_sep.
Qed.

Lemma parse_texts_record_witness :
  parse_texts ([] ++ ["~T|" +:+ "IT1" +:+ "|" +:+ " Solado | gres "])
  = <["IT1" := "Solado | gres"]> (parse_texts []).
Proof.
  destruct (parse_texts_record [] "IT1" " Solado | gres ") as [Hstored _];
    [reflexivity|].
  exact Hstored.
Defined.

(** ** Concepts *)

Lemma parse_concepts_snoc float_of_string records rec :
  parse_concepts float_of_string (records ++ [rec])
  = concept_step float_of_string (parse_concepts float_of_string records) rec.
Proof. unfold parse_concepts. by rewrite foldl_snoc. Qed.

(** A record with the tag of the concepts is never short: it is stored
    under its second field. *)
Lemma concept_step_stores float_of_string concepts rec :
  String.prefix "~C|" rec = true →
  ∃ c, concept_step float_of_string concepts rec
       = <[default "" (split "|"%char rec !! 1) := c]> concepts
       ∧ concept_codigo c = default "" (split "|"%char rec !! 1)
       ∧ concept_unidad c ≠ Some "".
Proof.
  intros Htag. unfold concept_step. rewrite Htag. cbn [negb].
  destruct (split_tag "~C" rec eq_refl Htag) as (rest & _ & ->).
  pose proof (split_nonnil "|"%char rest) as Hne.
  destruct (split "|"%char rest) as [|code fields]; [done|].
  cbn [length Nat.ltb Nat.leb].
  eexists. split; [reflexivity|]. split; [done|]. simpl.
  destruct fields as [|u fields]; [done|]. simpl.
  destruct (nonempty u) eqn:Hu; [|done]. intros [= ->]. done.
Qed.

Lemma concept_step_other float_of_string concepts rec :
  String.prefix "~C|" rec = false →
  concept_step float_of_string concepts rec = concepts.
Proof. intros Htag. unfold concept_step. by rewrite Htag. Qed.

(** X11: in the table [parse_concepts] returns, every concept is stored
    under its own code and its unit is never the empty string; and every
    record that starts with [~C|] has an entry under its second field,
    however few fields it has. *)
Theorem parse_concepts_table float_of_string records :
  (∀ code c,
      parse_concepts float_of_string records !! code = Some c →
      concept_codigo c = code ∧ concept_unidad c ≠ Some "")
  ∧ (∀ rec,
       rec ∈ records → String.prefix "~C|" rec = true →
       is_Some (parse_concepts float_of_string records
                  !! default "" (split "|"%char rec !! 1))).
Proof.
  induction records as [|last records [IHinv IHdom]] using rev_ind.
  - split; [|by intros rec ?%elem_of_nil].
    intros code c. unfold parse_concepts. simpl. by rewrite lookup_empty.
  - rewrite parse_concepts_snoc.
    destruct (String.prefix "~C|" last) eqn:Htag.
    + destruct (concept_step_stores float_of_string
                  (parse_concepts float_of_string records) last Htag)
        as (c & -> & Hcode & Hunit).
      split.
      * intros code c'. rewrite lookup_insert_Some.
        intros [[<- <-]|[_ Hold]]; [done|by apply IHinv].
      * intros rec [Hrec|Hrec%list_elem_of_singleton]%elem_of_app Hrec_tag.
        -- rewrite lookup_insert_is_Some'. right. by apply IHdom.
        -- subst rec. rewrite lookup_insert_is_Some'. by left.
    + rewrite concept_step_other by done. split; [done|].
      intros rec [Hrec|Hrec%list_elem_of_singleton]%elem_of_app Hrec_tag;
        [by apply IHdom|congruence].
Qed.

Example parse_concepts_sample :
  parse_concepts float_of_digits
    ["~C|IT1|m2|Solado|||10"; "~C|IT2||Sin unidad"; "~C|IT1|m|Otro|||x"; "~M|IT1||2"]
  = list_to_map [("IT1", Concept "IT1" (Some "m") "Otro" 0%float);
                 ("IT2", Concept "IT2" None "Sin unidad" 0%float)].
Proof. vm_compute. reflexivity. Qed.

(** ** Decompositions *)

Lemma nonempty_false s : nonempty s = false ↔ s = "".
Proof.
  unfold nonempty. rewrite negb_false_iff. split.
  - by intros ?%String.eqb_eq.
  - intros ->. apply String.eqb_refl.
Qed.

(** The pair a line contributes has a code that is not empty and holds
    no backslash. *)
Lemma decomp_child_code float_of_string line code factor :
  decomp_child float_of_string line = Some (code, factor) →
  code ≠ "" ∧ contains "\"%char code = false.
Proof.
  unfold decomp_child.
  destruct (nonempty (strip line)); [|done]. cbn [negb].
  destruct (nonempty (lstrip_chars bar_or_backslash (strip line))); [|done].
  cbn [negb].
  pose proof (split_no_sep_parts "\"%char (lstrip_chars bar_or_backslash (strip line)))
    as Hparts.
  destruct (split "\"%char (lstrip_chars bar_or_backslash (strip line)))
    as [|seg rest]; [done|].
  destruct (nonempty seg) eqn:Hseg; [|done]. cbn [negb]. intros [= <- _].
  split; [by apply nonempty_true|]. by inversion_clear Hparts.
Qed.

Lemma parse_decompositions_snoc float_of_string records rec :
  parse_decompositions float_of_string (records ++ [rec])
  = decomp_step float_of_string (parse_decompositions float_of_string records) rec.
Proof. unfold parse_decompositions. by rewrite foldl_snoc. Qed.

Lemma decomp_step_entry_ok float_of_string decomp rec :
  map_Forall entry_ok decomp →
  map_Forall entry_ok (decomp_step float_of_string decomp rec).
Proof.
  intros Hok. unfold decomp_step.
  destruct (negb (String.prefix "~D|" rec)); [done|].
  destruct (length (split_max "|"%char 2 rec) <? 3)%nat; [done|].
  destruct (nonempty (strip (default "" (split_max "|"%char 2 rec !! 1)))) eqn:Hparent;
    [|done].
  cbn [negb].
  destruct (omap _ _) as [|ch chs] eqn:Hchildren; [done|]. cbn [truthy].
  apply map_Forall_insert_2; [|done].
  split_and!; [by apply nonempty_true|done|].
  rewrite <- Hchildren. apply Forall_forall.
  intros [code factor] (line & _ & Hline)%list_elem_of_omap.
  by eapply decomp_child_code.
Qed.

(** X12: in the map [parse_decompositions] returns, no key is the empty
    string, no entry is an empty list, and every child code of an entry
    is a non-empty string without a backslash. *)
Theorem parse_decompositions_entries float_of_string records parent chs :
  parse_decompositions float_of_string records !! parent = Some chs →
  parent ≠ "" ∧ chs ≠ []
  ∧ Forall (λ ch, ch.1 ≠ "" ∧ contains "\"%char ch.1 = false) chs.
Proof.
  revert parent chs. change (map_Forall entry_ok
    (parse_decompositions float_of_string records)).
  unfold parse_decompositions.
  apply (foldl_invariant (map_Forall entry_ok)); [apply map_Forall_empty|].
  intros decomp rec. apply decomp_step_entry_ok.
Qed.

Example parse_decompositions_sample :
  parse_decompositions float_of_digits
    ["~D|OBRA |CAP1\1\" +:+ String "010"%char "CAP2\\3" +:+ String "010"%char " | ";
     "~D|CAP1|\|IT1\x\2"; "~D| |IT9\1"; "~D|CAP2|\"; "~D|CAP3"]
  = list_to_map [("OBRA", [("CAP1", 1%float); ("CAP2", 0%float)]);
                 ("CAP1", [("IT1", 0%float)])].
Proof. vm_compute. reflexivity. Qed.

Lemma parse_decompositions_entries_witness :
  "OBRA" ≠ "" ∧ [("CAP1", 1%float); ("CAP2", 0%float)] ≠ []
  ∧ Forall (λ ch : string * float, ch.1 ≠ "" ∧ contains "\"%char ch.1 = false)
      [("CAP1", 1%float); ("CAP2", 0%float)].
Proof.
  refine (parse_decompositions_entries float_of_digits
            ["~D|OBRA |CAP1\1\" +:+ String "010"%char "CAP2\\3"] "OBRA"
            [("CAP1", 1%float); ("CAP2", 0%float)] _).
  vm_compute. reflexivity.
Defined.

(** ** The decoders do not interact *)

(** X13: each decoder reads the records of its own kind only: removing
    from the record list every record that does not start with the tag of
    a decoder leaves the table of that decoder unchanged. *)
Theorem decoders_ignore_other_records float_of_string records :
  parse_concepts float_of_string
    (filter (λ rec, String.prefix "~C|" rec = true) records)
    = parse_concepts float_of_string records
  ∧ parse_texts (filter (λ rec, String.prefix "~T|" rec = true) records)
    = parse_texts records
  ∧ parse_decompositions float_of_string
      (filter (λ rec, String.prefix "~D|" rec = true) records)
    = parse_decompositions float_of_string records
  ∧ parse_measurements float_of_string
      (filter (λ rec, String.prefix "~M|" rec = true) records)
    = parse_measurements float_of_string records.
Proof.
  split_and!; apply foldl_filter_tag; intros table rec Htag.
  - by apply concept_step_other.
  - unfold text_step. by rewrite Htag.
  - unfold decomp_step. by rewrite Htag.
  - unfold measurement_step. by rewrite Htag.
Qed.

(** ** Measurement totals add up *)

Lemma measurement_step_of float_of_string quantities rec :
  measurement_step float_of_string quantities rec
  = match measurement_of float_of_string rec with
    | Some (k, total) =>
        <[k := PrimFloat.add (default 0%float (quantities !! k)) total]> quantities
    | None => quantities
    end.
Proof.
  unfold measurement_step, measurement_of.
  destruct (String.prefix "~M|" rec); [|done]. cbn [negb andb].
  rewrite Nat.leb_antisym.
  destruct (length (split "|"%char rec) <? 3)%nat; [done|]. cbn [negb].
  by destruct (float_of_string _).
Qed.

(** X14: the total stored under a key is the sum, taken from 0.0 in the
    order of the records, of the totals of the accepted records with that
    key; a key no accepted record has is absent from the table. *)
Theorem parse_measurements_sum float_of_string records key :
  parse_measurements float_of_string records !! key
  = match totals_of float_of_string key records with
    | [] => None
    | totals => Some (foldl PrimFloat.add 0%float totals)
    end.
Proof.
  induction records as [|rec records IH] using rev_ind; [done|].
  rewrite parse_measurements_snoc, measurement_step_of.
  unfold totals_of in *. rewrite omap_app. simpl.
  destruct (measurement_of float_of_string rec) as [[k total]|]; simpl.
  - destruct (decide (k = key)) as [->|Hne]; simpl.
    + rewrite lookup_insert_eq, IH.
      destruct (omap _ records) as [|t ts] eqn:Hts; [done|].
      simpl. by rewrite foldl_snoc.
    + rewrite lookup_insert_ne, app_nil_r by done. exact IH.
  - rewrite app_nil_r. exact IH.
Qed.

Example parse_measurements_sum_sample :
  parse_measurements float_of_digits
    ["~M|A\IT1||2"; "~M|IT2||7"; "~M|IT1|x"; "~M|B\IT1\||3"] !! "IT1"
  = Some (PrimFloat.add (PrimFloat.add 0 2) 3)%float.
Proof. vm_compute. reflexivity. Qed.

(** * The record extractor *)

Lemma index_ge s1 : ∀ s2 n m, String.index n s1 s2 = Some m → n ≤ m.
Proof.
  induction s2 as [|b s2 IH]; intros [|n] m; simpl.
  - destruct s1; [|done]. intros [= <-]. lia.
  - done.
  - intros _. lia.
  - destruct (String.index n s1 s2) as [k|] eqn:Hk; [|done].
    intros [= <-]. apply IH in Hk. lia.
Qed.

Lemma index_lt a s1 : ∀ s2 n m,
  String.index n (String a s1) s2 = Some m → m < String.length s2.
Proof.
  induction s2 as [|b s2 IH]; intros [|n] m; simpl; try done.
  - destruct (_ : bool).
    + intros [= <-]. lia.
    + destruct (String.index 0 (String a s1) s2) as [k|] eqn:Hk; [|done].
      intros [= <-]. apply IH in Hk. lia.
  - destruct (String.index n (String a s1) s2) as [k|] eqn:Hk; [|done].
    intros [= <-]. apply IH in Hk. lia.
Qed.

Lemma rfind_lt c : ∀ text n, rfind c text = Some n → n < String.length text.
Proof.
  induction text as [|a text IH]; intros n; simpl; [done|].
  destruct (rfind c text) as [k|] eqn:Hk.
  - intros [= <-]. specialize (IH k eq_refl). lia.
  - destruct (Ascii.eqb a c); [|done]. intros [= <-]. lia.
Qed.

Lemma load_loop_total : ∀ fuel text i records,
  i ≤ String.length text + 1 → String.length text + 1 < 2 * fuel + i →
  is_Some (load_loop fuel text i records).
Proof.
  induction fuel as [|fuel IH]; intros text i records Hi Hfuel; [lia|].
  simpl. destruct (String.index i "~" text) as [start|] eqn:Hstart; [|done].
  apply index_ge in Hstart as Hge.
  destruct (String.index start bar_newline text) as [e|] eqn:He.
  - apply index_ge in He as Hge'. apply index_lt in He.
    apply IH; lia.
  - destruct (rfind "|"%char text) as [last_bar|] eqn:Hbar; [|done].
    destruct (last_bar <=? start)%nat eqn:Hle; [done|].
    apply Nat.leb_gt in Hle. apply rfind_lt in Hbar. apply IH; lia.
Qed.

Lemma load_loop_mono : ∀ fuel fuel' text i records r,
  fuel ≤ fuel' → load_loop fuel text i records = Some r →
  load_loop fuel' text i records = Some r.
Proof.
  induction fuel as [|fuel IH]; intros [|fuel'] text i records r Hle; simpl;
    try done; try lia.
  destruct (String.index i "~" text) as [start|]; [|done].
  destruct (match String.index start bar_newline text with
            | Some e => Some e
            | None => _ end) as [e|]; [|done].
  apply IH. lia.
Qed.

Lemma substring_zero : ∀ s n, String.substring n 0 s = "".
Proof. induction s as [|c s IH]; intros [|n]; simpl; auto. Qed.

Lemma substring_substring_0 : ∀ text m l k s,
  String.substring m l (String.substring 0 k text) = s →
  String.length s = l →
  String.substring m l text = s ∧ (l ≠ 0 → m < k).
Proof.
  induction text as [|c t IH]; intros m l k s.
  - assert (String.substring 0 k "" = "") as -> by by destruct k.
    intros <- Hl. split; [done|]. intros Hne. destruct m, l; simpl in *; done.
  - destruct k as [|k].
    + simpl. intros <- Hl. assert (l = 0) as -> by by destruct m, l.
      split; [|intros Hne; by destruct Hne].
      destruct m; [done|]. by rewrite substring_zero.
    + simpl. destruct m as [|m].
      * destruct l as [|l]; simpl.
        -- intros <-. split; [done|lia].
        -- intros <- Hl. simpl in Hl. injection Hl as Hl.
           destruct (IH 0 l k _ eq_refl Hl) as [-> _]. split; [done|lia].
      * simpl. intros Hs Hl. destruct (IH m l k s Hs Hl) as [-> Hlt].
        split; [done|]. intros Hne. specialize (Hlt Hne). lia.
Qed.

Lemma substring_substring : ∀ text n m l k s,
  String.substring m l (String.substring n k text) = s →
  String.length s = l → l ≠ 0 →
  String.substring (n + m) l text = s ∧ m < k.
Proof.
  induction text as [|c t IH]; intros n m l k s.
  - assert (String.substring n k "" = "") as -> by by destruct n, k.
    intros <- Hl. destruct m, l; simpl in *; done.
  - destruct n as [|n].
    + intros Hs Hl Hne. destruct (substring_substring_0 _ _ _ _ _ Hs Hl) as [? ?].
      split; [done|auto].
    + simpl. apply IH.
Qed.

Lemma no_occurrence_substring s text n k :
  s ≠ "" →
  (∀ p, n ≤ p → p < n + k → String.substring p (String.length s) text ≠ s) →
  String.index 0 s (String.substring n k text) = None.
Proof.
  intros Hs Hno.
  destruct (String.index 0 s (String.substring n k text)) as [m|] eqn:Hm; [|done].
  apply String.index_correct1 in Hm.
  apply substring_substring in Hm as [Hm Hlt]; [|done|by destruct s].
  exfalso. apply (Hno (n + m)); [lia|lia|done].
Qed.

Lemma substring_prefix_char a : ∀ text start k,
  String.substring start 1 text = String a "" →
  String.prefix (String a "") (String.substring start (S k) text) = true.
Proof.
  induction text as [|c t IH]; intros [|start] k; simpl; try done.
  - intros [= -> _]. destruct (ascii_dec a a); [|done].
    by destruct (String.substring 0 k t).
  - apply IH.
Qed.

Lemma load_loop_records : ∀ fuel text i records result,
  Forall record_ok records →
  load_loop fuel text i records = Some result →
  Forall record_ok result.
Proof.
  induction fuel as [|fuel IH]; intros text i records result Hacc; simpl; [done|].
  destruct (String.index i "~" text) as [start|] eqn:Hstart;
    [|by intros [= <-]].
  apply String.index_correct1 in Hstart.
  destruct (String.index start bar_newline text) as [e|] eqn:He.
  - apply IH. apply Forall_app. split; [done|]. apply Forall_singleton.
    assert (start ≠ e) as Hne.
    { intros <-. apply String.index_correct1 in He. revert Hstart He.
      change (String.length bar_newline) with 2.
      change (String.length "~") with 1.
      clear. revert start. induction text as [|c t IHt]; intros [|start]; simpl; try done.
      - destruct t; simpl; [done|]. by intros [= ->].
      - apply IHt. }
    apply index_ge in He as Hge.
    split.
    + replace (e - start) with (S (e - start - 1)) by lia.
      by apply substring_prefix_char.
    + apply no_occurrence_substring; [done|]. intros p Hp Hp'.
      eapply String.index_correct2; [exact He|done|lia].
  - destruct (rfind "|"%char text) as [last_bar|] eqn:Hbar; [|by intros [= <-]].
    destruct (last_bar <=? start)%nat eqn:Hle; [by intros [= <-]|].
    apply Nat.leb_gt in Hle.
    apply IH. apply Forall_app. split; [done|]. apply Forall_singleton. split.
    + replace (last_bar - start) with (S (last_bar - start - 1)) by lia.
      by apply substring_prefix_char.
    + apply no_occurrence_substring; [done|]. intros p Hp Hp'.
      eapply String.index_correct3; [exact He|done|done].
Qed.

(** X15: the extractor returns for every text, and each record it
    returns starts with a tilde and contains no bar followed by a
    newline. *)
Theorem load_records_returns text :
  ∃ records, load_records text = Some records ∧ Forall record_ok records.
Proof.
  unfold load_records. cbv zeta.
  destruct (load_loop_total (S (String.length (replace_crlf text)))
              (replace_crlf text) 0 []) as [records Hrun]; [lia|lia|].
  exists records. split; [done|]. by eapply load_loop_records.
Qed.

Example load_records_sample :
  load_records (write_records (String LF "") ["~V|demo"] +:+ "x~C|A|m2|Obra")
  = Some ["~V|demo"; "~C|A|m2"].
Proof. vm_compute. reflexivity. Qed.

Lemma string_length_app a b :
  String.length (a +:+ b) = String.length a + String.length b.
Proof. induction a as [|c a IH]; simpl; [done|]. by rewrite IH. Qed.

Lemma index_app_skip s pre rest i :
  String.index (String.length pre + i) s (pre +:+ rest)
  = (λ m, String.length pre + m) <$> String.index i s rest.
Proof.
  induction pre as [|c pre IH].
  - rewrite string_app_nil_l. simpl. by destruct (String.index i s rest).
  - rewrite string_app_cons. simpl. rewrite IH.
    by destruct (String.index i s rest).
Qed.

Lemma string_prefix_cons a s1 b s2 :
  String.prefix (String a s1) (String b s2)
  = Ascii.eqb a b && String.prefix s1 s2.
Proof.
  simpl. destruct (ascii_dec a b) as [->|Hne].
  - by rewrite Ascii.eqb_refl.
  - apply Ascii.eqb_neq in Hne. by rewrite Hne.
Qed.

Lemma string_prefix_nil s : String.prefix "" s = true.
Proof. by destruct s. Qed.

Lemma index_bar_newline_app rest : ∀ r,
  String.index 0 bar_newline r = None →
  String.index 0 bar_newline (r +:+ bar_newline +:+ rest) = Some (String.length r).
Proof.
  induction r as [|c r IH]; intros Hr.
  - rewrite string_app_nil_l. unfold bar_newline. rewrite !string_app_cons.
    simpl. repeat (destruct (ascii_dec _ _); [|done]). by destruct (_ +:+ rest).
  - rewrite string_app_cons.
    change (String.index 0 bar_newline (String c ?s))
      with (if String.prefix bar_newline (String c s) then Some 0
            else match String.index 0 bar_newline s with
                 | Some n => Some (S n) | None => None end) in *.
    destruct (String.prefix bar_newline (String c r)) eqn:Hp; [done|].
    destruct (String.index 0 bar_newline r) eqn:Hi; [done|].
    rewrite (IH eq_refl).
    assert (String.prefix bar_newline (String c (r +:+ bar_newline +:+ rest)) = false) as ->;
      [|done].
    revert Hp. unfold bar_newline. rewrite !string_prefix_cons.
    destruct (Ascii.eqb "|" c); [|done]. cbn [andb].
    destruct r as [|c' r]; [done|]. rewrite string_app_cons, !string_prefix_cons.
    by rewrite !string_prefix_nil.
Qed.

Lemma substring_app pre r rest :
  String.substring (String.length pre) (String.length r) (pre +:+ r +:+ rest) = r.
Proof.
  induction pre as [|c pre IH].
  - rewrite string_app_nil_l. change (String.length "") with 0.
    induction r as [|c r IH].
    + rewrite string_app_nil_l. by destruct rest.
    + rewrite string_app_cons. simpl. by rewrite IH.
  - rewrite string_app_cons. simpl. exact IH.
Qed.

Lemma index_tilde_prefix r rest :
  String.prefix "~" r = true → String.index 0 "~" (r +:+ rest) = Some 0.
Proof.
  destruct r as [|c r]; [done|]. rewrite string_app_cons.
  change (String.index 0 "~" (String c ?s))
    with (if String.prefix "~" (String c s) then Some 0
          else match String.index 0 "~" s with
               | Some n => Some (S n) | None => None end).
  rewrite !string_prefix_cons, !string_prefix_nil. by intros ->.
Qed.

Ltac norm_app :=
  repeat (rewrite string_app_assoc || rewrite string_app_cons
          || rewrite string_app_nil_l).

Lemma load_loop_record fuel text pre r rest acc :
  text = pre +:+ r +:+ bar_newline +:+ rest →
  record_ok r →
  load_loop (S fuel) text (String.length pre) acc
  = load_loop fuel text (String.length pre + String.length r + 2) (acc ++ [r]).
Proof.
  intros -> [Htilde Hbar]. cbn [load_loop].
  rewrite <- (Nat.add_0_r (String.length pre)) at 1.
  rewrite index_app_skip, index_tilde_prefix by done.
  cbn [fmap option_fmap option_map]. rewrite Nat.add_0_r.
  rewrite <- (Nat.add_0_r (String.length pre)) at 1.
  rewrite index_app_skip, index_bar_newline_app by done.
  cbn [fmap option_fmap option_map].
  replace (String.length pre + String.length r - String.length pre)
    with (String.length r) by lia.
  by rewrite substring_app.
Qed.

Lemma load_loop_write tail : ∀ records pre acc fuel text,
  Forall record_ok records →
  text = pre +:+ write_records (String LF "") records +:+ tail →
  load_loop (length records + fuel) text (String.length pre) acc
  = load_loop fuel text
      (String.length pre + String.length (write_records (String LF "") records))
      (acc ++ records).
Proof.
  induction records as [|r records IH]; intros pre acc fuel text Hok Htext.
  - simpl. by rewrite Nat.add_0_r, app_nil_r.
  - apply Forall_cons in Hok as [Hr Hok].
    cbn [length Nat.add].
    rewrite (load_loop_record _ text pre r
               (write_records (String LF "") records +:+ tail)); [|
      rewrite Htext; cbn [write_records foldr]; unfold bar_newline, LF;
      by norm_app|done].
    specialize (IH (pre +:+ r +:+ bar_newline) (acc ++ [r]) fuel text Hok).
    rewrite !string_length_app in IH. change (String.length bar_newline) with 2 in IH.
    rewrite Nat.add_assoc in IH. rewrite IH.
    + rewrite <- (assoc_L _ acc). cbn [write_records foldr].
      rewrite !string_length_app. cbn [String.length]. rewrite string_length_app.
      f_equal. unfold write_records, LF. cbn [String.length]. lia.
    + rewrite Htext. cbn [write_records foldr]. unfold bar_newline, LF.
      by norm_app.
Qed.

Lemma replace_crlf_cons c s :
  Ascii.eqb c CR = false → replace_crlf (String c s) = String c (replace_crlf s).
Proof. intros Hc. simpl. unfold CR in Hc. rewrite Hc. by destruct s. Qed.

Lemma replace_crlf_app x : ∀ r,
  contains CR r = false → replace_crlf (r +:+ x) = r +:+ replace_crlf x.
Proof.
  induction r as [|c r IH]; intros Hr; [by norm_app|].
  simpl in Hr. apply orb_false_elim in Hr as [Hc Hr].
  norm_app. rewrite replace_crlf_cons by done. by rewrite IH.
Qed.

Lemma replace_crlf_id s : contains CR s = false → replace_crlf s = s.
Proof.
  induction s as [|c s IH]; [done|]. simpl contains.
  intros [Hc Hs]%orb_false_elim. rewrite replace_crlf_cons by done. by rewrite IH.
Qed.

Lemma replace_crlf_write eol tail : ∀ records,
  eol = String LF "" ∨ eol = String CR (String LF "") →
  Forall (λ r, contains CR r = false) records →
  replace_crlf (write_records eol records +:+ tail)
  = write_records (String LF "") records +:+ replace_crlf tail.
Proof.
  intros records Heol. induction 1 as [|r records Hr _ IH]; [by norm_app|].
  cbn [write_records foldr]. fold (write_records eol records).
  fold (write_records (String LF "") records).
  rewrite string_app_assoc, replace_crlf_app by done.
  norm_app. rewrite replace_crlf_cons by done. f_equal. f_equal.
  destruct Heol as [-> | ->]; norm_app.
  - rewrite replace_crlf_cons by done. by rewrite IH.
  - simpl. by rewrite IH.
Qed.

Lemma write_records_length eol records :
  length records ≤ String.length (write_records eol records).
Proof.
  induction records as [|r records IH]; simpl; [lia|].
  rewrite string_length_app. simpl. rewrite string_length_app. lia.
Qed.

Lemma contains_index a : ∀ s n,
  contains a s = false → String.index n (String a "") s = None.
Proof.
  induction s as [|c s IH]; intros n Hs.
  - by destruct n.
  - simpl in Hs. apply orb_false_elim in Hs as [Hc Hs]. destruct n as [|n].
    + change (String.index 0 (String a "") (String c s))
        with (if String.prefix (String a "") (String c s) then Some 0
              else match String.index 0 (String a "") s with
                   | Some n => Some (S n) | None => None end).
      rewrite string_prefix_cons, Ascii.eqb_sym, Hc. cbn [andb]. by rewrite IH.
    + simpl. by rewrite IH.
Qed.

Lemma string_app_nil_r s : s +:+ "" = s.
Proof. induction s as [|c s IH]; [done|]. by rewrite string_app_cons, IH. Qed.

(** X16: the extractor reads back what was written.  For records that
    start with a tilde and contain neither a bar followed by a newline
    nor a carriage return, the text made of each record followed by a
    bar and a line end, LF or CR LF, is read as exactly these records,
    in order. *)
Theorem load_records_write eol records :
  eol = String LF "" ∨ eol = String CR (String LF "") →
  Forall (λ r, record_ok r ∧ contains CR r = false) records →
  load_records (write_records eol records) = Some records.
Proof.
  intros Heol [Hok Hcr]%Forall_and. unfold load_records. cbv zeta.
  rewrite <- (string_app_nil_r (write_records eol records)) at 1 2.
  rewrite replace_crlf_write by done. cbn [replace_crlf].
  eapply (load_loop_mono (length records + 1)).
  { rewrite string_length_app. pose proof (write_records_length (String LF "") records).
    simpl. lia. }
  rewrite (load_loop_write "" records "" [] 1 _ Hok) by by norm_app.
  cbn [load_loop String.length Nat.add app].
  rewrite <- (Nat.add_0_r (String.length _)).
  by rewrite index_app_skip.
Qed.

Lemma load_records_write_witness :
  load_records
    (write_records (String CR (String LF "")) ["~V|demo"; "~C|A|m2|Obra"])
  = Some ["~V|demo"; "~C|A|m2|Obra"].
Proof.
  apply (load_records_write (String CR (String LF ""))
           ["~V|demo"; "~C|A|m2|Obra"]); [by right|].
  repeat constructor.
Defined.

Lemma rfind_app_last c junk : ∀ a,
  contains c junk = false → rfind c (a +:+ String c junk) = Some (String.length a).
Proof.
  intros a Hj. assert (rfind c junk = None) as Hnone.
  { induction junk as [|x junk IH]; [done|]. simpl in *.
    apply orb_false_elim in Hj as [Hx Hj]. by rewrite IH, Hx. }
  induction a as [|x a IH]; norm_app.
  - simpl. by rewrite Hnone, Ascii.eqb_refl.
  - simpl. by rewrite IH.
Qed.

Lemma index_bar_newline_last junk : ∀ r,
  String.index 0 bar_newline r = None →
  contains "|" junk = false →
  String.index 0 bar_newline (r +:+ String "|" junk) = None
  ∨ String.index 0 bar_newline (r +:+ String "|" junk) = Some (String.length r).
Proof.
  intros r Hr Hj. induction r as [|c r IH]; norm_app.
  - change (String.index 0 bar_newline (String ?c ?s))
      with (if String.prefix bar_newline (String c s) then Some 0
            else match String.index 0 bar_newline s with
                 | Some n => Some (S n) | None => None end).
    destruct (String.prefix _ _); [by right|]. left.
    assert (String.index 0 bar_newline junk = None) as ->; [|done].
    clear -Hj. induction junk as [|x junk IH]; [done|].
    simpl in Hj. apply orb_false_elim in Hj as [Hx Hj].
    change (String.index 0 bar_newline (String ?c ?s))
      with (if String.prefix bar_newline (String c s) then Some 0
            else match String.index 0 bar_newline s with
                 | Some n => Some (S n) | None => None end).
    unfold bar_newline at 1. rewrite string_prefix_cons, Ascii.eqb_sym, Hx. cbn [andb].
    by rewrite IH.
  - revert Hr.
    change (String.index 0 bar_newline (String ?c ?s))
      with (if String.prefix bar_newline (String c s) then Some 0
            else match String.index 0 bar_newline s with
                 | Some n => Some (S n) | None => None end).
    destruct (String.prefix bar_newline (String c r)) eqn:Hp; [done|].
    destruct (String.index 0 bar_newline r) eqn:Hi; [done|]. intros _.
    assert (String.prefix bar_newline (String c (r +:+ String "|" junk)) = false) as ->.
    { revert Hp. unfold bar_newline. rewrite !string_prefix_cons.
      destruct (Ascii.eqb "|" c); [|done]. cbn [andb].
      destruct r as [|c' r]; norm_app; [done|]. by rewrite !string_prefix_cons, !string_prefix_nil. }
    destruct (IH eq_refl) as [-> | ->]; [by left|by right].
Qed.

(** X17: the last record needs no line end, and what follows its last
    bar is dropped.  When the text ends with a record, a bar and a rest
    that holds no bar and no tilde, the record is returned with the
    others and the rest is lost: a last record that is not closed by a
    bar loses its last field. *)
Theorem load_records_last_record eol records r junk :
  eol = String LF "" ∨ eol = String CR (String LF "") →
  Forall (λ r, record_ok r ∧ contains CR r = false) (records ++ [r]) →
  contains "|" junk = false → contains "~" junk = false →
  contains CR junk = false →
  load_records (write_records eol records +:+ r +:+ String "|" junk)
  = Some (records ++ [r]).
Proof.
  intros Heol [Hok Hcr]%Forall_and Hbar Htilde Hjunk.
  apply Forall_app in Hok as [Hok [Hr _]%Forall_cons].
  apply Forall_app in Hcr as [Hcr [Hrcr _]%Forall_cons].
  unfold load_records. cbv zeta.
  rewrite replace_crlf_write, replace_crlf_app by done.
  rewrite (replace_crlf_cons "|") by done. rewrite (replace_crlf_id junk) by done.
  set (W := write_records (String LF "") records).
  set (text := W +:+ r +:+ String "|" junk).
  eapply (load_loop_mono (length records + 2)).
  { unfold text, W. rewrite string_length_app.
    pose proof (write_records_length (String LF "") records).
    destruct Hr as [Hr _]. destruct r; [done|]. simpl. lia. }
  pose proof (load_loop_write (r +:+ String "|" junk) records "" [] 2 text Hok)
    as Hloop.
  cbn [String.length] in Hloop. rewrite Hloop by by norm_app. clear Hloop.
  fold W. cbn [String.length Nat.add app]. cbn [load_loop]. unfold text.
  destruct Hr as [Hr Hno].
  rewrite <- (Nat.add_0_r (String.length W)) at 1.
  rewrite index_app_skip, index_tilde_prefix by done.
  cbn [fmap option_fmap option_map]. rewrite Nat.add_0_r.
  rewrite <- (Nat.add_0_r (String.length W)) at 1.
  rewrite index_app_skip.
  assert (rfind "|" (W +:+ r +:+ String "|" junk)
          = Some (String.length W + String.length r)) as ->.
  { rewrite <- string_app_assoc, rfind_app_last by done.
    by rewrite string_length_app. }
  assert ((String.length W + String.length r <=? String.length W)%nat = false) as ->.
  { apply Nat.leb_gt. destruct r; [done|]. simpl. lia. }
  assert (String.index (String.length (W +:+ r +:+ String "|" "") + 1) "~"
            ((W +:+ r +:+ String "|" "") +:+ junk) = None) as Hend.
  { rewrite index_app_skip. by rewrite contains_index. }
  rewrite !string_length_app in Hend. cbn [String.length] in Hend.
  revert Hend. norm_app. intros Hend.
  replace (String.length W + (String.length r + 1) + 1)
    with (String.length W + String.length r + 2) in Hend by lia.
  destruct (index_bar_newline_last junk r Hno Hbar) as [-> | ->];
    cbn [fmap option_fmap option_map];
    replace (String.length W + String.length r - String.length W)
      with (String.length r) by lia;
    by rewrite substring_app, Hend.
Qed.

Lemma load_records_last_record_witness :
  load_records
    (write_records (String LF "") ["~V|demo"] +:+ "~C|A|m2" +:+ String "|" "Obra")
  = Some (["~V|demo"] ++ ["~C|A|m2"]).
Proof.
  apply (load_records_last_record (String LF "") ["~V|demo"] "~C|A|m2" "Obra");
    [by left|repeat constructor|reflexivity..].
Defined.

(** * The conversion *)

Lemma parse_decompositions_ok float_of_string records :
  map_Forall entry_ok (parse_decompositions float_of_string records).
Proof.
  unfold parse_decompositions.
  apply (foldl_invariant (map_Forall entry_ok)); [apply map_Forall_empty|].
  intros decomp rec. apply decomp_step_entry_ok.
Qed.

Lemma universe_size (decomp : gmap string (list (string * float))) code :
  size (universe decomp code) ≤ S (size (child_codes decomp)).
Proof.
  unfold universe.
  rewrite size_union_alt, size_singleton.
  pose proof (subseteq_size (child_codes decomp ∖ {[code]}) (child_codes decomp)
                ltac:(set_solver)). lia.
Qed.

(** The tree built for a root code, before pruning. *)
Lemma build_node_root decomp concepts texts quantities root_code chs c factor rest :
  decomp !! root_code = Some chs → chs = (c, factor) :: rest →
  c ≠ root_code →
  ∃ tree first others,
    (∀ fuel, S (size (child_codes decomp)) < fuel →
       ∃ visited, build_node decomp concepts texts quantities fuel root_code 0 "0" ∅
                  = Some (Some tree, visited))
    ∧ codigo tree = root_code ∧ naturaleza tree = Root
    ∧ cantidad tree = 1%float
    ∧ hijos tree = first :: others
    ∧ codigo first = c ∧ cantidad first = 1%float
    ∧ (naturaleza first = Chapter ∨ naturaleza first = LineItem).
Proof.
  intros Hroot -> Hc.
  destruct (build_node_total decomp concepts texts quantities
              (S (S (size (child_codes decomp)))) (universe decomp root_code)
              root_code 0 "0" ∅) as [[r visited] Hrun].
  { unfold universe. set_solver. }
  { unfold universe. set_solver. }
  { pose proof (universe_size decomp root_code).
    pose proof (subseteq_size (universe decomp root_code ∖ ∅) (universe decomp root_code)
                  ltac:(set_solver)). lia. }
  apply build_node_ok in Hrun as Hok. destruct Hok as [Hskip _ _ _ _].
  destruct r as [tree|]; [|exfalso; by apply (not_elem_of_empty (C:=gset string) root_code), Hskip].
  apply build_node_Some in Hrun as Hf.
  destruct Hf as (_ & Hcode & _ & Hcant & _ & _ & Hnat & fuel' & Hfuel & Hloop).
  rewrite Hroot in Hloop, Hcant. simpl in Hloop.
  destruct (build_node decomp concepts texts quantities fuel' c 1 (child_cd 0 "0" 1)
              ({[root_code]} ∪ ∅)) as [[rc v1]|] eqn:Hcall; [|done].
  apply build_node_ok in Hcall as Hok. destruct Hok as [Hskip' _ _ _ _].
  destruct rc as [first|]; [|exfalso; destruct Hskip' as [Hs _]; specialize (Hs eq_refl); set_solver].
  eapply build_children_ok in Hloop as (others & Hhs & _);
    [|intros ???????; by eapply build_node_ok].
  apply build_node_Some in Hcall as (_ & Hcode1 & _ & Hcant1 & _ & _ & Hnat1 & _).
  exists tree, first, others. split_and!; try done.
  - intros fuel Hlt. exists visited. eapply build_node_mono; [|exact Hrun]. lia.
  - rewrite Hnat1. unfold determine_naturaleza. simpl.
    destruct (truthy (hijos first) || _); [by left|by right].
Qed.

Lemma detect_root_code_inr (decomp : gmap string (list (string * float))) r :
  detect_root_code decomp = inr r → r ∈ roots decomp.
Proof.
  unfold detect_root_code.
  destruct (elements (roots decomp)) as [|x l] eqn:Hel; [done|].
  intros [= <-]. apply elem_of_elements. rewrite Hel. by left.
Qed.

Lemma cantidad_prune_node n : cantidad (_prune_node n).2 = cantidad n.
Proof. by rewrite prune_node_spec. Qed.

Lemma naturaleza_prune_node n : naturaleza (_prune_node n).2 = naturaleza n.
Proof. by rewrite prune_node_spec. Qed.

(** X18: what a run of [bc3_to_json] comes to.  The records are always
    extracted; then either the root resolver raises its error, or, with
    room for a recursion as deep as there are child codes, the run
    returns a tree: the empty dictionary of the cycle guard never
    reaches the pruner.  The root of that tree carries the code the
    resolver chose, the position code 0, the nature 0 and the quantity
    1.0, and it is never bare: its first child is the first child of
    the root's decomposition entry, with position code 01 and quantity
    1.0, a chapter or a line item. *)
Theorem bc3_to_json_outcome float_of_string text :
  ∃ records,
    load_records text = Some records
    ∧ let decomp := parse_decompositions float_of_string records in
      match detect_root_code decomp with
      | inl e => ∀ fuel, bc3_to_json float_of_string fuel text = Raised e
      | inr root_code =>
          ∃ tree first,
            (∀ fuel, S (size (child_codes decomp)) < fuel →
               bc3_to_json float_of_string fuel text = Tree tree)
            ∧ codigo tree = root_code ∧ codigo_decimal tree = "0"
            ∧ naturaleza tree = Root ∧ cantidad tree = 1%float
            ∧ hijos tree !! 0 = Some first
            ∧ head (default [] (decomp !! root_code)).*1 = Some (codigo first)
            ∧ codigo_decimal first = "01" ∧ cantidad first = 1%float
            ∧ (naturaleza first = Chapter ∨ naturaleza first = LineItem)
      end.
Proof.
  destruct (load_loop_total (S (String.length (replace_crlf text)))
              (replace_crlf text) 0 []) as [records Hrun]; [lia|lia|].
  fold (load_records text) in Hrun.
  exists records. split; [done|]. cbv zeta.
  destruct (detect_root_code (parse_decompositions float_of_string records))
    as [e|root_code] eqn:Hdetect.
  { intros fuel. unfold bc3_to_json. by rewrite Hrun, Hdetect. }
  apply detect_root_code_inr in Hdetect as Hroot.
  apply elem_of_roots in Hroot as [[chs Hchs] Hchild].
  destruct (parse_decompositions_ok float_of_string records root_code chs Hchs)
    as (_ & Hne & _).
  destruct chs as [|[c factor] rest]; [done|].
  assert (c ≠ root_code) as Hc.
  { intros ->. apply Hchild. exists root_code, ((root_code, factor) :: rest), factor.
    split; [done|]. by left. }
  destruct (build_node_root (parse_decompositions float_of_string records)
              (parse_concepts float_of_string records) (parse_texts records)
              (parse_measurements float_of_string records)
              root_code _ c factor rest Hchs eq_refl Hc)
    as (tree & first & others & Hbuild & Hcode & Hnat & Hcant & Hhijos
        & Hcode1 & Hcant1 & Hnat1).
  assert ((_prune_node first).1 = true) as Hkeep.
  { rewrite prune_node_flag, signal_unfold. unfold tiene_cantidad.
    by rewrite Hcant1. }
  exists (renumber_tree (prune_tree tree)),
    (renumber_as (child_cd 0 "0" 1) 1 (_prune_node first).2).
  assert (hijos (renumber_tree (prune_tree tree)) !! 0
          = Some (renumber_as (child_cd 0 "0" 1) 1 (_prune_node first).2)) as Hfirst.
  { rewrite renumber_tree_unfold, hijos_renumber_as, hijos_prune_tree, Hhijos.
    rewrite survivors_cons, Hkeep. done. }
  split_and!.
  - intros fuel Hfuel. destruct (Hbuild fuel Hfuel) as [visited Hb].
    unfold bc3_to_json. by rewrite Hrun, Hdetect, Hb.
  - by rewrite renumber_tree_unfold, renumber_as_unfold, prune_tree_spec.
  - by rewrite renumber_tree_unfold, codigo_decimal_renumber_as.
  - by rewrite renumber_tree_unfold, renumber_as_unfold, prune_tree_spec.
  - by rewrite renumber_tree_unfold, renumber_as_unfold, prune_tree_spec.
  - done.
  - rewrite Hchs, renumber_as_unfold. simpl. by rewrite codigo_prune_node, Hcode1.
  - by rewrite codigo_decimal_renumber_as.
  - rewrite renumber_as_unfold. simpl. by rewrite cantidad_prune_node.
  - rewrite renumber_as_unfold. simpl. by rewrite naturaleza_prune_node.
Qed.

(** * The output name *)

Lemma digits_no_paren s :
  is_Some (NilEmpty.uint_of_string s) → contains ")" s = false.
Proof.
  induction s as [|c s IH]; [done|]. simpl. intros [d Hd].
  destruct (Ascii.eqb c ")") eqn:Hc.
  - apply Ascii.eqb_eq in Hc as ->. by destruct (NilEmpty.uint_of_string s).
  - simpl. apply IH. destruct (NilEmpty.uint_of_string s); [done|].
    by destruct c as [[] [] [] [] [] [] [] []].
Qed.

Lemma uint_of_string_str_of_nat n :
  NilEmpty.uint_of_string (str_of_nat n) = Some (Nat.to_uint n).
Proof.
  unfold str_of_nat. pose proof (to_uint_nonnil n).
  destruct (Nat.to_uint n) eqn:Hu; [done|apply NilEmpty.usu..].
Qed.

Lemma str_of_nat_inj a b : str_of_nat a = str_of_nat b → a = b.
Proof.
  intros Heq. apply (f_equal NilEmpty.uint_of_string) in Heq.
  rewrite !uint_of_string_str_of_nat in Heq. injection Heq as Heq.
  apply (f_equal Nat.of_uint) in Heq. by rewrite !Unsigned.of_to in Heq.
Qed.

Lemma string_app_inv_l a x y : a +:+ x = a +:+ y → x = y.
Proof.
  induction a as [|c a IH]; rewrite ?string_app_nil_l; [done|].
  rewrite !string_app_cons. intros [= Heq]. by apply IH.
Qed.

Lemma nuevo_nombre_inj stem suffix i j :
  nuevo_nombre stem suffix i = nuevo_nombre stem suffix j → i = j.
Proof.
  unfold nuevo_nombre. intros Heq%string_app_inv_l%string_app_inv_l.
  apply (f_equal (split ")")) in Heq.
  change (")" +:+ suffix) with (String ")" suffix) in Heq.
  rewrite !split_app_sep in Heq.
  - injection Heq as Heq. by apply str_of_nat_inj.
  - apply digits_no_paren. by rewrite uint_of_string_str_of_nat.
  - apply digits_no_paren. by rewrite uint_of_string_str_of_nat.
Qed.

Lemma nombre_loop_find existing stem suffix k : ∀ fuel i,
  k < fuel →
  nuevo_nombre stem suffix (i + k) ∉ existing →
  (∀ j, j < k → nuevo_nombre stem suffix (i + j) ∈ existing) →
  nombre_loop existing stem suffix fuel i = Some (nuevo_nombre stem suffix (i + k)).
Proof.
  induction k as [|k IH]; intros [|fuel] i Hfuel Hfree Hbelow; try lia; simpl.
  - rewrite Nat.add_0_r in *. by rewrite decide_True.
  - rewrite decide_False.
    + rewrite (IH fuel (S i)); [by rewrite Nat.add_succ_r|lia| |].
      * by rewrite Nat.add_succ_r in Hfree.
      * intros j Hj. specialize (Hbelow (S j) ltac:(lia)).
        by rewrite Nat.add_succ_r in Hbelow.
    + intros Hnot. apply Hnot. specialize (Hbelow 0 ltac:(lia)).
      by rewrite Nat.add_0_r in Hbelow.
Qed.

Lemma first_free (existing : gset string) stem suffix n :
  (∀ j, j < n → nuevo_nombre stem suffix (1 + j) ∈ existing)
  ∨ ∃ k, k < n ∧ (nuevo_nombre stem suffix (1 + k) ∉ existing)
         ∧ ∀ j, j < k → nuevo_nombre stem suffix (1 + j) ∈ existing.
Proof.
  induction n as [|n IHn]; [left; lia|].
  destruct IHn as [IH|(k & Hk & Hfree & Hbelow)].
  - destruct (decide (nuevo_nombre stem suffix (1 + n) ∈ existing)) as [Hin|Hout].
    + left. intros j Hj. destruct (decide (j = n)) as [->|]; [done|]. apply IH. lia.
    + right. exists n. split_and!; [lia|done|done].
  - right. exists k. split_and!; [lia|done|done].
Qed.

Lemma names_run_out (existing : gset string) stem suffix :
  ¬ ∀ j, j < S (size existing) → nuevo_nombre stem suffix (1 + j) ∈ existing.
Proof.
  intros Hall.
  set (l := (λ j, nuevo_nombre stem suffix (1 + j)) <$> seq 0 (S (size existing))).
  assert (NoDup l) as Hnd.
  { apply NoDup_fmap_2; [|apply NoDup_seq].
    intros a b Hab%nuevo_nombre_inj. lia. }
  assert (l ⊆+ elements existing) as Hsub%submseteq_length.
  { apply NoDup_submseteq; [done|]. intros x (j & -> & Hj%elem_of_seq)%list_elem_of_fmap.
    apply elem_of_elements, Hall. lia. }
  unfold l in Hsub. rewrite length_fmap, length_seq in Hsub.
  change (length (elements existing)) with (size existing) in Hsub. lia.
Qed.

(** X19: the output name is never the name of an existing file.  With
    finitely many files in the folder the search returns; it returns the
    name asked for when that is free, and otherwise the numbered name
    with the smallest index, from 1, that is free. *)
Theorem generar_nombre_incremental_free existing stem suffix name :
  ∃ out,
    (∀ fuel, size existing < fuel →
       generar_nombre_incremental existing stem suffix fuel name = Some out)
    ∧ (out ∉ existing)
    ∧ (name ∉ existing → out = name)
    ∧ (name ∈ existing →
       ∃ i, 1 ≤ i ∧ out = nuevo_nombre stem suffix i
            ∧ ∀ j, 1 ≤ j → j < i → nuevo_nombre stem suffix j ∈ existing).
Proof.
  unfold generar_nombre_incremental.
  destruct (decide (name ∉ existing)) as [Hfree|Hin].
  { exists name. split_and!; done. }
  destruct (first_free existing stem suffix (S (size existing)))
    as [Hall|(k & Hk & Hfree & Hbelow)]; [by apply names_run_out in Hall|].
  exists (nuevo_nombre stem suffix (1 + k)). split_and!; [|done|done|].
  - intros fuel Hfuel. apply nombre_loop_find; [lia|done|done].
  - intros _. exists (1 + k). split_and!; [lia|done|].
    intros j Hj Hjk. replace j with (1 + (j - 1)) by lia. apply Hbelow. lia.
Qed.

Example generar_nombre_incremental_sample :
  generar_nombre_incremental {["obra.json"; "obra (1).json"; "obra (3).json"]}
    "obra" ".json" 4 "obra.json"
  = Some "obra (2).json".
Proof. vm_compute. reflexivity. Qed.
